(** * xingkong: the starry-field particle simulation

    A shallow embedding of the per-frame particle update of
    [components/StarryField.tsx], of the pointer handlers of [App.tsx]
    and of [utils/math.ts].

    JavaScript numbers are modelled as real numbers: [Math.sin], [Math.cos],
    [Math.sqrt] and [Math.abs] are the functions of the same name on [R],
    and [Math.atan2] is defined below from [atan].  Rounding (of IEEE
    doubles, and of the stores into [Float32Array]s) is not part of this
    model.  The two places where the difference to doubles matters, a NaN
    gesture velocity and the last steps of the wind's decay, are modelled
    on IEEE binary64 values in the module [Binary64]. *)

From Stdlib Require Import Reals Lra Lia ZArith List.
From Stdlib Require Floats.
From stdpp Require Import base list.
Import ListNotations.

Open Scope R_scope.

(** ** JavaScript built-ins *)

(** [Math.atan2(y, x)]: the angle of the point [(x, y)], in [(-PI, PI]].
    [Math.atan2(0, 0)] is [0].  The reals have one zero: the sign of a
    zero argument is not told apart. *)
Definition atan2 (y x : R) : R :=
  if Rlt_dec 0 x then atan (y / x)
  else if Rlt_dec x 0 then
    (if Rle_dec 0 y then atan (y / x) + PI else atan (y / x) - PI)
  else if Rlt_dec 0 y then PI / 2
  else if Rlt_dec y 0 then - (PI / 2)
  else 0.

(** [Math.floor], as an array index. *)
Definition floor_index (r : R) : nat := Z.to_nat (Int_part r).

(** A typed array is a list of numbers.  A store out of range is ignored,
    as for a [Float32Array]; reads are only made in range (an out-of-range
    read reads [0] here). *)
Definition aget (a : list R) (i : nat) : R := default 0 (a !! i).
Definition aset (a : list R) (i : nat) (v : R) : list R := <[i := v]> a.

(** [for (let i = i0; i < i0 + n; i++) s = body(i, s)] *)
Fixpoint for_loop {St : Type} (body : nat -> St -> St) (n i : nat) (s : St) : St :=
  match n with
  | O => s
  | S n' => for_loop body n' (S i) (body i s)
  end.

(** [Math.random]: the draws are an explicit sequence, read at a cursor
    that every call advances. *)
Record Rng := { draws : nat -> R; cursor : nat }.

Definition Math_random (g : Rng) : R * Rng :=
  (draws g (cursor g), {| draws := draws g; cursor := S (cursor g) |}).

(** ** utils/math.ts *)

Definition lerp (a b t : R) : R := a + (b - a) * t.

Definition randomRange (min max : R) (g : Rng) : R * Rng :=
  let '(u, g') := Math_random g in (u * (max - min) + min, g').

(** [THREE.MathUtils.lerp] of three.js (a library, not part of the
    repository): [(1 - t) * x + t * y]. *)
Definition MathUtils_lerp (x y t : R) : R := (1 - t) * x + t * y.

(** ** App.tsx: the interaction points *)

Record InteractionPoint := {
  pt_x : R; pt_y : R; pt_vx : R; pt_vy : R
}.

Record HandInfluence := {
  hand_x : R; hand_y : R; hand_vx : R; hand_vy : R; hand_active : bool
}.

(** ** components/StarryField.tsx *)

#[warnings="-abstract-large-number"]
Definition PARTICLE_COUNT : nat := 16000.

Record Viewport := { vp_width : R; vp_height : R }.

Record ActivePoint := { ap_x : R; ap_y : R; ap_v : R }.

(** The arrays made by [useMemo], the [uTime] uniform, the [windVelocity]
    ref, the rotation of the mesh and the [needsUpdate] flag of the
    position attribute.  [positions] is the array of the position
    attribute; [initialPositions] is another array. *)
Record StarryField := {
  positions : list R;
  colors : list R;
  sizes : list R;
  phases : list R;
  angles : list R;
  initialPositions : list R;
  uTime : R;
  windVelocity : R;
  rotation_z : R;
  needsUpdate : bool
}.

Definition set_positions (p : list R) (st : StarryField) : StarryField :=
  {| positions := p; colors := colors st; sizes := sizes st;
     phases := phases st; angles := angles st;
     initialPositions := initialPositions st; uTime := uTime st;
     windVelocity := windVelocity st; rotation_z := rotation_z st;
     needsUpdate := needsUpdate st |}.

(** What one frame reads from outside the component: the clock, the
    viewport, the map of interaction points (a JavaScript [Map], which
    keeps its keys in insertion order: a list of key-value pairs) and the
    hand state. *)
Record Frame := {
  elapsedTime : R;
  viewport : Viewport;
  interactionPoints : list (Z * InteractionPoint);
  handInfluence : HandInfluence
}.

(** [Array.from(interactionPoints.current.values()).map(...)] *)
Definition activePoints (vp : Viewport) (pts : list (Z * InteractionPoint))
  : list ActivePoint :=
  map (fun p => {| ap_x := pt_x p * vp_width vp / 2;
                   ap_y := pt_y p * vp_height vp / 2;
                   ap_v := sqrt (pt_vx p * pt_vx p + pt_vy p * pt_vy p) |})
      (map snd pts).

Definition targetWind (h : HandInfluence) : R :=
  if hand_active h then hand_vx h * -15 else 0.

(** The body of [activePoints.forEach]: the push of one point on the
    target [(targetX, targetY)]. *)
Definition applyPoint (t : R * R) (p : ActivePoint) : R * R :=
  let '(targetX, targetY) := t in
  let dx := targetX - ap_x p in
  let dy := targetY - ap_y p in
  let mouseDist := sqrt (dx * dx + dy * dy) in
  let influenceRadius := 4 + ap_v p * 10 in
  if Rlt_dec mouseDist influenceRadius then
    let factor := (influenceRadius - mouseDist) / influenceRadius in
    (targetX + dx * factor * (0.3 + ap_v p * 2),
     targetY + dy * factor * (0.3 + ap_v p * 2))
  else (targetX, targetY).

(** The target of the particle whose initial position is [(x, y, z)]: the
    body of the particle loop between its reads and its writes. *)
Definition particleTarget (time : R) (pts : list ActivePoint) (wind : R)
    (x y z : R) : R * R * R :=
  let dist := sqrt (x * x + y * y) in
  let angle := atan2 y x in
  let vortex := sin (time * 0.1 + dist * 0.3) * 0.5 in
  let rotationSpeed := (0.04 + vortex * 0.02) * (1.0 / (dist * 0.1 + 1.0)) in
  let currentAngle := angle + time * rotationSpeed in
  let targetX := cos currentAngle * dist in
  let targetY := sin currentAngle * dist in
  let targetZ := z + sin (time * 0.5 + dist * 0.5) * 0.3 in
  let '(targetX, targetY) := fold_left applyPoint pts (targetX, targetY) in
  let targetX := targetX + wind * (1.0 - dist / 20.0) in
  (targetX, targetY, targetZ).

(** One turn of the particle loop: particle [i] is read from
    [initialPositions] and written to the position attribute. *)
Definition particleStep (time : R) (pts : list ActivePoint) (i : nat)
    (st : StarryField) : StarryField :=
  let i3 := (i * 3)%nat in
  let x := aget (initialPositions st) i3 in
  let y := aget (initialPositions st) (i3 + 1) in
  let z := aget (initialPositions st) (i3 + 2) in
  let '(targetX, targetY, targetZ) :=
    particleTarget time pts (windVelocity st) x y z in
  set_positions
    (aset (aset (aset (positions st) i3 targetX) (i3 + 1) targetY)
          (i3 + 2) targetZ)
    st.

(** The callback of [useFrame], for a field of [count] particles: the
    source runs it with [PARTICLE_COUNT]; the count is an argument here so
    that small fields can be run too. *)
Definition useFrame (count : nat) (fr : Frame) (st : StarryField) : StarryField :=
  let time := elapsedTime fr in
  let pts := activePoints (viewport fr) (interactionPoints fr) in
  let wind :=
    MathUtils_lerp (windVelocity st) (targetWind (handInfluence fr)) 0.05 in
  let st1 :=
    {| positions := positions st; colors := colors st; sizes := sizes st;
       phases := phases st; angles := angles st;
       initialPositions := initialPositions st; uTime := time;
       windVelocity := wind; rotation_z := rotation_z st;
       needsUpdate := needsUpdate st |} in
  let st2 := for_loop (particleStep time pts) count 0 st1 in
  {| positions := positions st2; colors := colors st2; sizes := sizes st2;
     phases := phases st2; angles := angles st2;
     initialPositions := initialPositions st2; uTime := uTime st2;
     windVelocity := windVelocity st2;
     rotation_z := rotation_z st2 + (0.001 + Rabs (windVelocity st2) * 0.005);
     needsUpdate := true |}.

(** The arrays of [useMemo].  Each particle takes seven draws, in the
    order of the source: angle, radius, depth, palette index, size, phase,
    sprite angle.  The palette holds [THREE.Color] values, which three.js
    computes: it is an argument. *)
Definition initStep (palette : list (R * R * R)) (i : nat)
    (s : StarryField * Rng) : StarryField * Rng :=
  let '(st, g) := s in
  let '(u, g) := Math_random g in
  let angle := u * PI * 2 in
  let '(radius, g) := randomRange 1 15 g in
  let x := cos angle * radius in
  let y := sin angle * radius in
  let '(u, g) := Math_random g in
  let z := (u - 0.5) * 4 in
  let i3 := (i * 3)%nat in
  let pos := aset (aset (aset (positions st) i3 x) (i3 + 1) y) (i3 + 2) z in
  let initPos :=
    aset (aset (aset (initialPositions st) i3 x) (i3 + 1) y) (i3 + 2) z in
  let '(u, g) := Math_random g in
  let '(r, gr, b) :=
    nth (floor_index (u * INR (length palette))) palette (0, 0, 0) in
  let cols := aset (aset (aset (colors st) i3 r) (i3 + 1) gr) (i3 + 2) b in
  let '(sz, g) := randomRange 0.08 0.25 g in
  let szs := aset (sizes st) i sz in
  let '(u, g) := Math_random g in
  let phs := aset (phases st) i (u * 10.0) in
  let '(u, g) := Math_random g in
  let agls := aset (angles st) i (u * PI) in
  ({| positions := pos; colors := cols; sizes := szs; phases := phs;
      angles := agls; initialPositions := initPos; uTime := uTime st;
      windVelocity := windVelocity st; rotation_z := rotation_z st;
      needsUpdate := needsUpdate st |}, g).

(** The component before its first frame: arrays of zeros filled by the
    loop of [useMemo], [uTime] at 0 and [windVelocity] at 0. *)
Definition initialField (count : nat) (palette : list (R * R * R)) (g : Rng)
  : StarryField * Rng :=
  for_loop (initStep palette) count 0
    ({| positions := replicate (count * 3) 0;
        colors := replicate (count * 3) 0;
        sizes := replicate count 0;
        phases := replicate count 0;
        angles := replicate count 0;
        initialPositions := replicate (count * 3) 0;
        uTime := 0; windVelocity := 0; rotation_z := 0;
        needsUpdate := false |}, g).

(** ** App.tsx: the pointer handlers *)

Module App.

(** A JavaScript [Map] with number keys: the pairs in insertion order;
    [set] on a key that is present replaces its value in place. *)
Section JsMap.
Context {V : Type}.

Fixpoint Map_get (k : Z) (m : list (Z * V)) : option V :=
  match m with
  | [] => None
  | (k', v) :: m' => if Z.eqb k' k then Some v else Map_get k m'
  end.

Fixpoint Map_set (k : Z) (v : V) (m : list (Z * V)) : list (Z * V) :=
  match m with
  | [] => [(k, v)]
  | (k', v') :: m' =>
      if Z.eqb k' k then (k, v) :: m' else (k', v') :: Map_set k v m'
  end.

Fixpoint Map_delete (k : Z) (m : list (Z * V)) : list (Z * V) :=
  match m with
  | [] => []
  | (k', v') :: m' =>
      if Z.eqb k' k then Map_delete k m' else (k', v') :: Map_delete k m'
  end.
End JsMap.

Record Window := { innerWidth : R; innerHeight : R }.

Record PointerEvent := { pointerId : Z; clientX : R; clientY : R }.

Record Position := { pos_x : R; pos_y : R }.

(** The two refs of the component. *)
Record Refs := {
  interactionPoints : list (Z * InteractionPoint);
  lastPointerPositions : list (Z * Position)
}.

Definition normX (w : Window) (e : PointerEvent) : R :=
  (clientX e / innerWidth w) * 2 - 1.

Definition normY (w : Window) (e : PointerEvent) : R :=
  - (clientY e / innerHeight w) * 2 + 1.

Definition handlePointerDown (w : Window) (e : PointerEvent) (r : Refs) : Refs :=
  let last :=
    Map_set (pointerId e) {| pos_x := normX w e; pos_y := normY w e |}
            (lastPointerPositions r) in
  {| interactionPoints :=
       Map_set (pointerId e)
               {| pt_x := normX w e; pt_y := normY w e; pt_vx := 0; pt_vy := 0 |}
               (interactionPoints r);
     lastPointerPositions := last |}.

Definition handlePointerMove (w : Window) (e : PointerEvent) (r : Refs) : Refs :=
  let currentX := normX w e in
  let currentY := normY w e in
  match Map_get (pointerId e) (lastPointerPositions r) with
  | Some last =>
      {| interactionPoints :=
           Map_set (pointerId e)
                   {| pt_x := currentX; pt_y := currentY;
                      pt_vx := currentX - pos_x last;
                      pt_vy := currentY - pos_y last |}
                   (interactionPoints r);
         lastPointerPositions :=
           Map_set (pointerId e) {| pos_x := currentX; pos_y := currentY |}
                   (lastPointerPositions r) |}
  | None => r
  end.

Definition handlePointerUp (e : PointerEvent) (r : Refs) : Refs :=
  {| interactionPoints := Map_delete (pointerId e) (interactionPoints r);
     lastPointerPositions := Map_delete (pointerId e) (lastPointerPositions r) |}.

(** Both refs start as empty maps. *)
Definition initialRefs : Refs :=
  {| interactionPoints := []; lastPointerPositions := [] |}.

(** The listeners of [window]. *)
Inductive Event :=
| pointerdown (e : PointerEvent)
| pointermove (e : PointerEvent)
| pointerup (e : PointerEvent).

Definition dispatch (w : Window) (ev : Event) (r : Refs) : Refs :=
  match ev with
  | pointerdown e => handlePointerDown w e r
  | pointermove e => handlePointerMove w e r
  | pointerup e => handlePointerUp e r
  end.

(** The aggregator as the specification words it: one [upsert] for both
    the first sample of an id and the later ones, and [remove].  It is
    compared with the handlers below. *)
Definition spec_upsert (id : Z) (x y : R) (r : Refs) : Refs :=
  match Map_get id (lastPointerPositions r) with
  | None =>
      {| interactionPoints :=
           Map_set id {| pt_x := x; pt_y := y; pt_vx := 0; pt_vy := 0 |}
                   (interactionPoints r);
         lastPointerPositions :=
           Map_set id {| pos_x := x; pos_y := y |} (lastPointerPositions r) |}
  | Some last =>
      {| interactionPoints :=
           Map_set id {| pt_x := x; pt_y := y;
                         pt_vx := x - pos_x last; pt_vy := y - pos_y last |}
                   (interactionPoints r);
         lastPointerPositions :=
           Map_set id {| pos_x := x; pos_y := y |} (lastPointerPositions r) |}
  end.

End App.

(** ** The wind smoother on IEEE binary64 values

    Lines 149-150 of the frame callback again, on the values a JavaScript
    number really takes (finite doubles, infinities and NaN), with the
    arithmetic of the standard library's [SpecFloat]. *)
Module Binary64.

Import PrimFloat.

Definition number : Type := SpecFloat.spec_float.

Definition prec : Z := 53.
Definition emax : Z := 1024.

Definition mul : number -> number -> number := SpecFloat.SFmul prec emax.
Definition add : number -> number -> number := SpecFloat.SFadd prec emax.
Definition sub : number -> number -> number := SpecFloat.SFsub prec emax.

Definition NaN : number := SpecFloat.S754_nan.
Definition zero : number := SpecFloat.S754_zero false.
Definition one : number := Eval vm_compute in FloatOps.Prim2SF 1%float.
Definition minus_15 : number := Eval vm_compute in FloatOps.Prim2SF (-15)%float.
(** [0.05]: the double nearest to it. *)
Definition alpha : number := Eval vm_compute in FloatOps.Prim2SF 0x1.999999999999ap-5%float.

Record HandInfluence := { hand_vx : number; hand_active : bool }.

Definition targetWind (h : HandInfluence) : number :=
  if hand_active h then mul (hand_vx h) minus_15 else zero.

Definition MathUtils_lerp (x y t : number) : number :=
  add (mul (sub one t) x) (mul t y).

(** [lerp] of utils/math.ts, the other way to write the interpolation. *)
Definition lerp (a b t : number) : number := add a (mul (sub b a) t).

(** [windVelocity.current] after the two lines. *)
Definition smoothedWind (windVelocity : number) (h : HandInfluence) : number :=
  MathUtils_lerp windVelocity (targetWind h) alpha.

End Binary64.

(** ** Auxiliary definitions of the proofs *)

(** The three stores of one turn of a loop over triples. *)
Definition write3 (a : list R) (i3 : nat) (v : R * R * R) : list R :=
  let '(x, y, z) := v in aset (aset (aset a i3 x) (i3 + 1) y) (i3 + 2) z.

(** What the loop computes for particle [j] of the field [st]. *)
Definition targetOf (time : R) (pts : list ActivePoint) (st : StarryField)
    (j : nat) : R * R * R :=
  particleTarget time pts (windVelocity st)
    (aget (initialPositions st) (j * 3))
    (aget (initialPositions st) (j * 3 + 1))
    (aget (initialPositions st) (j * 3 + 2)).

(** Two fields that differ in the position array at most. *)
Definition same_but_positions (st st' : StarryField) : Prop :=
  colors st' = colors st /\ sizes st' = sizes st /\ phases st' = phases st /\
  angles st' = angles st /\ initialPositions st' = initialPositions st /\
  uTime st' = uTime st /\ windVelocity st' = windVelocity st /\
  rotation_z st' = rotation_z st /\ needsUpdate st' = needsUpdate st /\
  length (positions st') = length (positions st).

(** The angle of the particle at [(x, y)] at [time], before the forces. *)
Definition currentAngleOf (time x y : R) : R :=
  let dist := sqrt (x * x + y * y) in
  let vortex := sin (time * 0.1 + dist * 0.3) * 0.5 in
  let rotationSpeed := (0.04 + vortex * 0.02) * (1.0 / (dist * 0.1 + 1.0)) in
  atan2 y x + time * rotationSpeed.

(** The end-to-end scenario: three particles, no pointer, no hand. *)
Definition scenario_initial : list R := [1; 0; 0; 0; 2; 0; -3; 0; 1].

Definition scenario_field : StarryField :=
  {| positions := scenario_initial;
     colors := replicate 9 1; sizes := replicate 3 0.1;
     phases := replicate 3 0; angles := replicate 3 0;
     initialPositions := scenario_initial;
     uTime := 0; windVelocity := 0; rotation_z := 0; needsUpdate := false |}.

Definition no_hand : HandInfluence :=
  {| hand_x := 0; hand_y := 0; hand_vx := 0; hand_vy := 0; hand_active := false |}.

Definition scenario_frame : Frame :=
  {| elapsedTime := 0; viewport := {| vp_width := 16; vp_height := 9 |};
     interactionPoints := []; handInfluence := no_hand |}.

(** Particle [i] of an array of triples, and its distance to the axis. *)
Definition particle_x (a : list R) (i : nat) : R := aget a (i * 3).
Definition particle_y (a : list R) (i : nat) : R := aget a (i * 3 + 1).
Definition particle_z (a : list R) (i : nat) : R := aget a (i * 3 + 2).

Definition xy_radius (a : list R) (i : nat) : R :=
  sqrt (particle_x a i * particle_x a i + particle_y a i * particle_y a i).

(** The scenario's field after frames have run: another position array,
    another rotation, the same initial positions and wind. *)
Definition scenario_field_later : StarryField :=
  {| positions := [5; 5; 5; 5; 5; 5; 5; 5; 5];
     colors := replicate 9 1; sizes := replicate 3 0.1;
     phases := replicate 3 0; angles := replicate 3 0;
     initialPositions := scenario_initial;
     uTime := 7; windVelocity := 0; rotation_z := 0.25; needsUpdate := true |}.

(** Successive frames, the first of the list first. *)
Definition run_frames (count : nat) (frs : list Frame) (st : StarryField)
  : StarryField :=
  fold_left (fun s fr => useFrame count fr s) frs st.

Definition inactive (fr : Frame) : Prop :=
  hand_active (handInfluence fr) = false.

(** A field in which the wind blows, and a frame with the hand away. *)
Definition windy_field : StarryField :=
  {| positions := scenario_initial;
     colors := replicate 9 1; sizes := replicate 3 0.1;
     phases := replicate 3 0; angles := replicate 3 0;
     initialPositions := scenario_initial;
     uTime := 0; windVelocity := 2; rotation_z := 0; needsUpdate := false |}.

(** The same frame with the hand away, and the same field with no wind:
    the run in which the wind velocity used by the loop is 0. *)
Definition calm (fr : Frame) : Frame :=
  {| elapsedTime := elapsedTime fr; viewport := viewport fr;
     interactionPoints := interactionPoints fr; handInfluence := no_hand |}.

Definition still (st : StarryField) : StarryField :=
  {| positions := positions st; colors := colors st; sizes := sizes st;
     phases := phases st; angles := angles st;
     initialPositions := initialPositions st; uTime := uTime st;
     windVelocity := 0; rotation_z := rotation_z st;
     needsUpdate := needsUpdate st |}.

(** One particle far out, at (40, 0, 0), in a wind of 20. *)
Definition far_field : StarryField :=
  {| positions := [40; 0; 0];
     colors := replicate 3 1; sizes := replicate 1 0.1;
     phases := replicate 1 0; angles := replicate 1 0;
     initialPositions := [40; 0; 0];
     uTime := 0; windVelocity := 20; rotation_z := 0; needsUpdate := false |}.

(** A pointer resting at the centre of the screen. *)
Definition origin_point : InteractionPoint :=
  {| pt_x := 0; pt_y := 0; pt_vx := 0; pt_vy := 0 |}.

(** The same frame with no interaction point. *)
Definition without_points (fr : Frame) : Frame :=
  {| elapsedTime := elapsedTime fr; viewport := viewport fr;
     interactionPoints := []; handInfluence := handInfluence fr |}.

(** One particle at the centre, no wind, and a frame with a pointer
    resting at the centre. *)
Definition origin_field : StarryField :=
  {| positions := [0; 0; 0];
     colors := replicate 3 1; sizes := replicate 1 0.1;
     phases := replicate 1 0; angles := replicate 1 0;
     initialPositions := [0; 0; 0];
     uTime := 0; windVelocity := 0; rotation_z := 0; needsUpdate := false |}.

Definition origin_frame : Frame :=
  {| elapsedTime := 0; viewport := {| vp_width := 16; vp_height := 9 |};
     interactionPoints := [(1%Z, origin_point)]; handInfluence := no_hand |}.

(** A window of 800 by 600 pixels, a pointer in its middle and the same
    pointer moved to the right. *)
Definition window0 : App.Window :=
  {| App.innerWidth := 800; App.innerHeight := 600 |}.

Definition pointer_mid : App.PointerEvent :=
  {| App.pointerId := 1; App.clientX := 400; App.clientY := 300 |}.

Definition pointer_right : App.PointerEvent :=
  {| App.pointerId := 1; App.clientX := 600; App.clientY := 300 |}.

(** The handlers keep the two maps on the same ids. *)
Definition same_ids (r : App.Refs) : Prop :=
  forall k, App.Map_get k (App.interactionPoints r) = None <->
            App.Map_get k (App.lastPointerPositions r) = None.

(** The pointer of [pointer_mid] pressed in an empty aggregator. *)
Definition refs_pressed : App.Refs :=
  App.handlePointerDown window0 pointer_mid App.initialRefs.

(** Every draw of the generator is in [0, 1), as [Math.random] promises. *)
Definition unit_draws (g : Rng) : Prop := forall k, 0 <= draws g k < 1.

(** Particle [j] of the array is in the ring and the slab where the
    initialisation puts it. *)
Definition in_start_range (a : list R) (j : nat) : Prop :=
  1 <= xy_radius a j < 15 /\ -2 <= particle_z a j < 2.

(** What holds of the arrays after [k] turns of the loop of [useMemo]. *)
Definition init_invariant (count k : nat) (s : StarryField * Rng) : Prop :=
  length (initialPositions (fst s)) = (count * 3)%nat /\
  positions (fst s) = initialPositions (fst s) /\
  unit_draws (snd s) /\
  forall j, (j < k)%nat -> in_start_range (initialPositions (fst s)) j.

(** A generator that always draws one half. *)
Definition half_rng : Rng := {| draws := fun _ => 0.5; cursor := 0 |}.

Definition white_palette : list (R * R * R) := [(1, 1, 1)].

(** One particle at (3, 0, 1): as far from the axis and as deep as the
    third particle of the scenario, on the other side. *)
Definition mirror_field : StarryField :=
  {| positions := [3; 0; 1];
     colors := replicate 3 1; sizes := replicate 1 0.1;
     phases := replicate 1 0; angles := replicate 1 0;
     initialPositions := [3; 0; 1];
     uTime := 0; windVelocity := 0; rotation_z := 0; needsUpdate := false |}.

(** * The rest of the program *)

From Stdlib Require String.

(** ** utils/math.ts: [createSwirl] *)

Record Vec3 := { vec_x : R; vec_y : R; vec_z : R }.

Definition createSwirl (x y z time : R) : Vec3 :=
  let angle := atan2 y x in
  let dist := sqrt (x * x + y * y) in
  let swirlFactor := 2.0 / (dist + 0.1) in
  let newAngle := angle + swirlFactor * 0.1 + time * 0.2 in
  {| vec_x := cos newAngle * dist;
     vec_y := sin newAngle * dist;
     vec_z := z + sin (time + dist * 0.5) * 0.1 |}.

(** ** App.tsx: [GestureCameraHandler]

    The position of the camera after the callback of [useFrame];
    [camera.lookAt] turns the camera and leaves its position.
    [Vector3.length] of three.js is the Euclidean norm. *)
Module GestureCameraHandler.

Definition length (v : Vec3) : R :=
  sqrt (vec_x v * vec_x v + vec_y v * vec_y v + vec_z v * vec_z v).

Definition useFrame (targetDistance handX : R) (position : Vec3) : Vec3 :=
  let currentLen := length position in
  let newLen := MathUtils_lerp currentLen targetDistance 0.08 in
  let targetAngleX := handX * 0.2 in
  let currentAngleX := atan2 (vec_x position) (vec_z position) in
  let newAngleX := MathUtils_lerp currentAngleX targetAngleX 0.05 in
  {| vec_x := sin newAngleX * newLen;
     vec_y := vec_y position;
     vec_z := cos newAngleX * newLen |}.

(** The [handX] prop that [App] passes. *)
Definition handX (h : HandInfluence) : R :=
  if hand_active h then hand_x h else 0.

End GestureCameraHandler.

(** ** App.tsx: the callback of [hands.onResults] *)
Module Hands.

Record Landmark := { lm_x : R; lm_y : R }.

(** The state the callback writes: the [handState] and [prevHandX] refs
    and the React states [isHandTracking], [isWaving], [camDistance]. *)
Record State := {
  handState : HandInfluence;
  prevHandX : R;
  isHandTracking : bool;
  isWaving : bool;
  camDistance : R
}.

Definition initialState : State :=
  {| handState := {| hand_x := 0; hand_y := 0; hand_vx := 0; hand_vy := 0;
                     hand_active := false |};
     prevHandX := 0.5; isHandTracking := false; isWaving := false;
     camDistance := 18 |}.

(** [Math.hypot] of two numbers. *)
Definition hypot (a b : R) : R := sqrt (a * a + b * b).

(** The callback returns, or throws a [TypeError] when it reads [.x] of a
    landmark that is not there; the state is the one it has reached. *)
Inductive Outcome :=
| Returned (s : State)
| Threw (s : State).

Definition state_of (o : Outcome) : State :=
  match o with Returned s => s | Threw s => s end.

Definition gtb (a b : R) : bool := if Rlt_dec b a then true else false.

(** [results.multiHandLandmarks] is [None] when the field is undefined. *)
Definition onResults (multiHandLandmarks : option (list (list Landmark)))
    (s : State) : Outcome :=
  match multiHandLandmarks with
  | Some (landmarks :: _) =>
      let s0 :=
        {| handState := handState s; prevHandX := prevHandX s;
           isHandTracking := true; isWaving := isWaving s;
           camDistance := camDistance s |} in
      match landmarks !! 0%nat with
      | None => Threw s0
      | Some wrist =>
          let currentX := (lm_x wrist - 0.5) * 2 in
          let currentY := - (lm_y wrist - 0.5) * 2 in
          let vx := lm_x wrist - prevHandX s in
          let waving := gtb (Rabs vx) 0.04 in
          let s1 :=
            {| handState :=
                 {| hand_x := currentX; hand_y := currentY;
                    hand_vx := vx * 10; hand_vy := 0; hand_active := true |};
               prevHandX := lm_x wrist;
               isHandTracking := true; isWaving := waving;
               camDistance := camDistance s |} in
          match landmarks !! 4%nat, landmarks !! 8%nat, landmarks !! 12%nat,
                landmarks !! 16%nat, landmarks !! 20%nat with
          | Some thumbTip, Some indexTip, Some tip12, Some tip16, Some tip20 =>
              let pinchDist :=
                hypot (lm_x thumbTip - lm_x indexTip)
                      (lm_y thumbTip - lm_y indexTip) in
              let spreadScore :=
                fold_left
                  (fun acc tip =>
                     acc + hypot (lm_x tip - lm_x wrist) (lm_y tip - lm_y wrist))
                  [indexTip; tip12; tip16; tip20] 0 / 4 in
              let cam :=
                if Rlt_dec pinchDist 0.05 then Rmin (camDistance s + 0.4) 35
                else if Rlt_dec 0.4 spreadScore
                     then Rmax (camDistance s - 0.4) 10
                     else camDistance s in
              Returned
                {| handState := handState s1; prevHandX := prevHandX s1;
                   isHandTracking := true; isWaving := waving;
                   camDistance := cam |}
          | _, _, _, _, _ => Threw s1
          end
      end
  | _ =>
      Returned
        {| handState :=
             {| hand_x := hand_x (handState s); hand_y := hand_y (handState s);
                hand_vx := hand_vx (handState s);
                hand_vy := hand_vy (handState s); hand_active := false |};
           prevHandX := prevHandX s;
           isHandTracking := false; isWaving := false;
           camDistance := camDistance s |}
  end.

End Hands.

(** ** App.tsx: the component tree

    [App] hands its two refs to [StarryField]: each frame reads the
    interaction points and the hand state as the handlers left them. *)
Module System.

Record State := {
  refs : App.Refs;
  hands : Hands.State;
  field : StarryField
}.

Inductive Event :=
| Pointer (w : App.Window) (ev : App.Event)
| HandResults (multiHandLandmarks : option (list (list Hands.Landmark)))
| Tick (time : R) (vp : Viewport).

Definition frame_of (time : R) (vp : Viewport) (s : State) : Frame :=
  {| elapsedTime := time; viewport := vp;
     interactionPoints := App.interactionPoints (refs s);
     handInfluence := Hands.handState (hands s) |}.

Definition step (count : nat) (s : State) (ev : Event) : State :=
  match ev with
  | Pointer w e =>
      {| refs := App.dispatch w e (refs s); hands := hands s;
         field := field s |}
  | HandResults r =>
      {| refs := refs s;
         hands := Hands.state_of (Hands.onResults r (hands s));
         field := field s |}
  | Tick time vp =>
      {| refs := refs s; hands := hands s;
         field := useFrame count (frame_of time vp s) (field s) |}
  end.

Definition run (count : nat) (evs : list Event) (s : State) : State :=
  fold_left (step count) evs s.

Definition initialState (count : nat) (palette : list (R * R * R)) (g : Rng)
  : State :=
  {| refs := App.initialRefs; hands := Hands.initialState;
     field := fst (initialField count palette g) |}.

End System.

(** ** services/geminiService.ts and [handleInterpret] of App.tsx *)
Module Gemini.

Import String.

(** What the call of the model comes to: a response, whose [text] may be
    undefined, or an exception. *)
Inductive ApiOutcome :=
| Responded (text : option String.string)
| Failed.

Definition fallback : String.string :=
  "星光在蓝色的暗涌中跳动，
它是灵魂未竟的梦境，
在数字的漩涡里，我们终将重逢。"%string.

Definition interpretTheStars (api : ApiOutcome) : option String.string :=
  match api with
  | Responded text => text
  | Failed => Some fallback
  end.

Definition silent : String.string := "星空无言，唯有光影流转。"%string.

(** The React states [interpretation] and [loading]. *)
Record Panel := { interpretation : option String.string; loading : bool }.

(** [text || silent]: the empty string and [undefined] are falsy. *)
Definition handleInterpret (api : ApiOutcome) (p : Panel) : Panel :=
  let text := interpretTheStars api in
  {| interpretation :=
       Some (match text with
             | Some String.EmptyString | None => silent
             | Some t => t
             end);
     loading := false |}.

End Gemini.

(** ** components/StarryField.tsx: the shaders

    The brightness of a sprite as the two GLSL programs compute it:
    [vDistToCenter] in the vertex shader, the rest in the fragment shader.
    [length] is the Euclidean norm and [clamp(x, lo, hi)] is
    [min(max(x, lo), hi)]. *)
Module Shader.

Definition clamp (x minVal maxVal : R) : R := Rmin (Rmax x minVal) maxVal.

Definition vDistToCenter (position uLightPos : Vec3) : R :=
  sqrt ((vec_x position - vec_x uLightPos) * (vec_x position - vec_x uLightPos)
        + (vec_y position - vec_y uLightPos) * (vec_y position - vec_y uLightPos)
        + (vec_z position - vec_z uLightPos) * (vec_z position - vec_z uLightPos)).

Definition lightInfluence (vDistToCenter : R) : R :=
  clamp (1.0 / (vDistToCenter * 0.15 + 0.5)) 0.5 2.5.

Definition twinkle (uTime vPhase : R) : R :=
  0.8 + 0.2 * sin (uTime * 2.0 + vPhase).

(** The red, green and blue of [gl_FragColor]. *)
Definition fragColor_rgb (vColor : R * R * R) (vDistToCenter uTime vPhase : R)
  : R * R * R :=
  let '(r, g, b) := vColor in
  (r * lightInfluence vDistToCenter * twinkle uTime vPhase,
   g * lightInfluence vDistToCenter * twinkle uTime vPhase,
   b * lightInfluence vDistToCenter * twinkle uTime vPhase).

End Shader.

(** * Auxiliary definitions of the further properties *)

(** A field of two particles, at (3, 4, 1) and (0, 0, -1), in a wind of 2,
    and a frame at time 10 with the hand away. *)
Definition pair_field : StarryField :=
  {| positions := [0; 0; 0; 0; 0; 0];
     colors := replicate 6 1; sizes := replicate 2 0.1;
     phases := replicate 2 0; angles := replicate 2 0;
     initialPositions := [3; 4; 1; 0; 0; -1];
     uTime := 0; windVelocity := 2; rotation_z := 0; needsUpdate := false |}.

Definition late_frame : Frame :=
  {| elapsedTime := 10; viewport := {| vp_width := 16; vp_height := 9 |};
     interactionPoints := []; handInfluence := no_hand |}.

(** A pointer dragged fast near the particle at (3, 4): a point of the
    frame, in the units of the screen. *)
Definition fast_point : InteractionPoint :=
  {| pt_x := 0.25; pt_y := 0.5; pt_vx := 0.3; pt_vy := 0.4 |}.

Definition fast_points : list (Z * InteractionPoint) := [(7%Z, fast_point)].

(** A frame whose only pointer is far from the centre: at (80, 45) on a
    viewport of 16 by 9. *)
Definition far_point_frame : Frame :=
  {| elapsedTime := 0; viewport := {| vp_width := 16; vp_height := 9 |};
     interactionPoints :=
       [(1%Z, {| pt_x := 10; pt_y := 10; pt_vx := 0; pt_vy := 0 |})];
     handInfluence := no_hand |}.

(** The colour of particle [j]. *)
Definition particle_color (a : list R) (j : nat) : R * R * R :=
  (aget a (j * 3), aget a (j * 3 + 1), aget a (j * 3 + 2)).

(** What holds of the field and the generator after [k] turns of the loop
    of [useMemo], started at the cursor [c0]. *)
Definition init_layout (count c0 k : nat) (g0 : Rng) (s : StarryField * Rng)
  : Prop :=
  length (positions (fst s)) = (count * 3)%nat /\
  length (colors (fst s)) = (count * 3)%nat /\
  length (initialPositions (fst s)) = (count * 3)%nat /\
  length (sizes (fst s)) = count /\
  length (phases (fst s)) = count /\
  length (angles (fst s)) = count /\
  positions (fst s) = initialPositions (fst s) /\
  uTime (fst s) = 0 /\ windVelocity (fst s) = 0 /\ rotation_z (fst s) = 0 /\
  draws (snd s) = draws g0 /\
  cursor (snd s) = (c0 + 7 * k)%nat.

Definition init_attributes (palette : list (R * R * R)) (k : nat)
    (s : StarryField * Rng) : Prop :=
  forall j, (j < k)%nat ->
    0.08 <= aget (sizes (fst s)) j < 0.25 /\
    0 <= aget (phases (fst s)) j < 10 /\
    0 <= aget (angles (fst s)) j < PI /\
    In (particle_color (colors (fst s)) j) palette.

(** A palette of two colours and a generator whose draws go up and down
    in [0, 1). *)
Definition two_colours : list (R * R * R) := [(1, 1, 1); (1, 0.5, 0)].

Definition saw_rng : Rng :=
  {| draws := fun k => if Nat.even k then 0.25 else 0.75; cursor := 3 |}.

(** The keys of a [Map], in its order. *)
Definition keys {V : Type} (m : list (Z * V)) : list Z := map fst m.

(** The pointer an event is about. *)
Definition event_id (ev : App.Event) : Z :=
  match ev with
  | App.pointerdown e | App.pointermove e | App.pointerup e => App.pointerId e
  end.

(** Pointer events in the order they come, each with the size the window
    has when it comes. *)
Definition pointer_run (evs : list (App.Window * App.Event)) (r : App.Refs)
  : App.Refs :=
  fold_left (fun r we => App.dispatch (fst we) (snd we) r) evs r.

(** The two maps hold the same ids in the same order, each once, and the
    raw position kept for an id is the position of its point. *)
Definition refs_consistent (r : App.Refs) : Prop :=
  NoDup (keys (App.interactionPoints r)) /\
  keys (App.interactionPoints r) = keys (App.lastPointerPositions r) /\
  forall id p,
    App.Map_get id (App.interactionPoints r) = Some p ->
    App.Map_get id (App.lastPointerPositions r) =
      Some {| App.pos_x := pt_x p; App.pos_y := pt_y p |}.

(** A second pointer, hovering: moved but never pressed. *)
Definition pointer_hover : App.PointerEvent :=
  {| App.pointerId := 2; App.clientX := 100; App.clientY := 100 |}.

(** A hand of 21 landmarks, all at the same place but the wrist: the
    thumb and the index finger touch. *)
Definition pinched_hand (wrist_x : R) : list Hands.Landmark :=
  {| Hands.lm_x := wrist_x; Hands.lm_y := 0.5 |}
  :: replicate 20 {| Hands.lm_x := 0.5; Hands.lm_y := 0.4 |}.

(** The wrist of every hand of the results is in the picture. *)
Definition wrist_in_picture (r : option (list (list Hands.Landmark))) : Prop :=
  forall landmarks rest wrist,
    r = Some (landmarks :: rest) -> landmarks !! 0%nat = Some wrist ->
    0 <= Hands.lm_x wrist <= 1.

(** The events of a run whose hands have their wrist in the picture. *)
Definition event_in_picture (ev : System.Event) : Prop :=
  match ev with
  | System.HandResults r => wrist_in_picture r
  | _ => True
  end.

(** What every state of a run keeps of the field it started with. *)
Definition keeps_store (st0 : StarryField) (s : System.State) : Prop :=
  colors (System.field s) = colors st0 /\
  sizes (System.field s) = sizes st0 /\
  phases (System.field s) = phases st0 /\
  angles (System.field s) = angles st0 /\
  initialPositions (System.field s) = initialPositions st0 /\
  length (positions (System.field s)) = length (positions st0).

(** The hand state and the wind stay within the range a wrist in the
    picture can give them. *)
Definition wind_in_range (s : System.State) : Prop :=
  0 <= Hands.prevHandX (System.hands s) <= 1 /\
  Rabs (hand_vx (Hands.handState (System.hands s))) <= 10 /\
  Rabs (windVelocity (System.field s)) <= 150.

(** A short run: a pointer is pressed and dragged, a hand waves in front
    of the camera, frames are drawn, the hand goes away. *)
Definition demo_run : list System.Event :=
  [System.Pointer window0 (App.pointerdown pointer_mid);
   System.Tick 0.016 {| vp_width := 16; vp_height := 9 |};
   System.HandResults (Some [pinched_hand 0.7]);
   System.Pointer window0 (App.pointermove pointer_right);
   System.Tick 0.033 {| vp_width := 16; vp_height := 9 |};
   System.HandResults None;
   System.Tick 0.05 {| vp_width := 16; vp_height := 9 |}].

(** Frames of the camera handler toward one target distance, one for each
    value of [handX] in the list. *)
Definition camera_run (targetDistance : R) (handXs : list R) (position : Vec3)
  : Vec3 :=
  fold_left (fun p handX => GestureCameraHandler.useFrame targetDistance handX p)
            handXs position.

(** The camera where [Canvas] puts it, and one swung to the side. *)
Definition camera_start : Vec3 := {| vec_x := 0; vec_y := 0; vec_z := 18 |}.
Definition camera_side : Vec3 := {| vec_x := 12; vec_y := 3; vec_z := -5 |}.

(** * Auxiliary definitions of the claims on reachable fields and on doubles *)

(** An idle hand, with whatever velocity it had last. *)
Definition idle_hand (vx : Binary64.number) : Binary64.HandInfluence :=
  {| Binary64.hand_vx := vx; Binary64.hand_active := false |}.

(** [n] frames in a row with the hand idle, on doubles. *)
Definition idle_frames (n : nat) (w : Binary64.number) : Binary64.number :=
  Nat.iter n (fun w => Binary64.smoothedWind w (idle_hand Binary64.zero)) w.

(** The subnormal double of magnitude [k * 2^-1074]. *)
Definition subnormal (negative : bool) (k : positive) : Binary64.number :=
  SpecFloat.S754_finite negative k (-1074).

(** The double -1.5. *)
Module Binary64Constants.

Import PrimFloat.

Definition minus_one_and_a_half : Binary64.number :=
  Eval vm_compute in FloatOps.Prim2SF (-1.5)%float.

End Binary64Constants.


(** The field of a run of the component tree from its start. *)
Definition field_of_run (count : nat) (palette : list (R * R * R)) (g : Rng)
    (evs : list System.Event) : StarryField :=
  System.field (System.run count evs (System.initialState count palette g)).

(** A long idle spell: 15000 frames, some four minutes at 60 frames a
    second. *)
#[warnings="-abstract-large-number"]
Definition long_idle : nat := 15000.

(** * Properties *)

(** ** Typed arrays *)

Lemma aget_aset_eq (a : list R) (i : nat) (v : R) :
  (i < length a)%nat -> aget (aset a i v) i = v.
Proof.
  intros Hi. unfold aget, aset. now rewrite list_lookup_insert_eq.
Qed.

Lemma aget_aset_ne (a : list R) (i j : nat) (v : R) :
  i <> j -> aget (aset a i v) j = aget a j.
Proof.
  intros Hne. unfold aget, aset. now rewrite list_lookup_insert_ne.
Qed.

Lemma length_aset (a : list R) (i : nat) (v : R) :
  length (aset a i v) = length a.
Proof. apply length_insert. Qed.

(** Two arrays of one length that read the same everywhere are equal. *)
Lemma aget_ext (a b : list R) :
  length a = length b ->
  (forall k, (k < length a)%nat -> aget a k = aget b k) ->
  a = b.
Proof.
  intros Hlen Hget. apply list_eq_same_length with (n := length a); auto.
  intros k x y Hk Hx Hy.
  specialize (Hget k Hk). unfold aget in Hget.
  rewrite Hx, Hy in Hget. exact Hget.
Qed.


Lemma length_write3 a i3 v : length (write3 a i3 v) = length a.
Proof.
  destruct v as [[x y] z]. unfold write3. now rewrite !length_aset.
Qed.

Lemma write3_other a i3 v k :
  (k < i3 \/ i3 + 3 <= k)%nat -> aget (write3 a i3 v) k = aget a k.
Proof.
  intros Hk. destruct v as [[x y] z]. unfold write3.
  rewrite !aget_aset_ne by lia. reflexivity.
Qed.

Lemma write3_read a i3 v :
  (i3 + 2 < length a)%nat ->
  aget (write3 a i3 v) i3 = fst (fst v) /\
  aget (write3 a i3 v) (i3 + 1) = snd (fst v) /\
  aget (write3 a i3 v) (i3 + 2) = snd v.
Proof.
  intros Hlen. destruct v as [[x y] z]. unfold write3. simpl.
  repeat split.
  - rewrite !aget_aset_ne by lia. apply aget_aset_eq. lia.
  - rewrite aget_aset_ne by lia. apply aget_aset_eq. rewrite length_aset. lia.
  - apply aget_aset_eq. rewrite !length_aset. lia.
Qed.

(** ** The particle loop of the frame callback *)


Lemma same_but_positions_refl st : same_but_positions st st.
Proof. unfold same_but_positions. tauto. Qed.

Lemma same_but_positions_trans st1 st2 st3 :
  same_but_positions st1 st2 -> same_but_positions st2 st3 ->
  same_but_positions st1 st3.
Proof.
  unfold same_but_positions. intros H12 H23.
  decompose [and] H12. decompose [and] H23.
  repeat split; congruence.
Qed.

Lemma particleStep_write3 time pts i st :
  particleStep time pts i st =
  set_positions (write3 (positions st) (i * 3) (targetOf time pts st i)) st.
Proof.
  unfold particleStep, targetOf.
  destruct (particleTarget _ _ _ _ _ _) as [[tx ty] tz]. reflexivity.
Qed.

Lemma particleStep_same time pts i st :
  same_but_positions st (particleStep time pts i st).
Proof.
  rewrite particleStep_write3. unfold same_but_positions, set_positions. simpl.
  rewrite length_write3. tauto.
Qed.

Lemma targetOf_same time pts st st' j :
  same_but_positions st st' -> targetOf time pts st' j = targetOf time pts st j.
Proof.
  intros H. unfold same_but_positions in H. decompose [and] H.
  unfold targetOf. congruence.
Qed.

Section ParticleLoop.
Variables (time : R) (pts : list ActivePoint).

Lemma loop_same n : forall i st,
  same_but_positions st (for_loop (particleStep time pts) n i st).
Proof.
  induction n as [|n IH]; intros i st; simpl.
  - apply same_but_positions_refl.
  - eapply same_but_positions_trans; [apply particleStep_same | apply IH].
Qed.

(** The loop from [i] over [n] particles leaves the other entries of the
    position array alone. *)
Lemma loop_positions_out n : forall i st k,
  (k < i * 3 \/ (i + n) * 3 <= k)%nat ->
  aget (positions (for_loop (particleStep time pts) n i st)) k =
  aget (positions st) k.
Proof.
  induction n as [|n IH]; intros i st k Hk; simpl; [reflexivity|].
  rewrite IH by lia.
  rewrite particleStep_write3. unfold set_positions. simpl.
  apply write3_other. lia.
Qed.

(** And it holds the target of each particle it went over. *)
Lemma loop_positions_in n : forall i st j,
  (i <= j < i + n)%nat ->
  (j * 3 + 2 < length (positions st))%nat ->
  let out := positions (for_loop (particleStep time pts) n i st) in
  (aget out (j * 3), aget out (j * 3 + 1), aget out (j * 3 + 2)) =
  targetOf time pts st j.
Proof.
  induction n as [|n IH]; intros i st j Hj Hlen; simpl; [lia|].
  destruct (Nat.eq_dec j i) as [->|Hne].
  - rewrite !loop_positions_out by lia.
    rewrite particleStep_write3. unfold set_positions. simpl.
    destruct (write3_read (positions st) (i * 3) (targetOf time pts st i) Hlen)
      as (Hx & Hy & Hz).
    rewrite Hx, Hy, Hz.
    now destruct (targetOf time pts st i) as [[tx ty] tz].
  - pose proof (particleStep_same time pts i st) as Hsame.
    rewrite <- (targetOf_same time pts st _ j Hsame).
    apply IH; [lia|].
    unfold same_but_positions in Hsame. decompose [and] Hsame. lia.
Qed.
End ParticleLoop.

(** ** The frame callback *)

Lemma useFrame_same count fr st :
  colors (useFrame count fr st) = colors st /\
  sizes (useFrame count fr st) = sizes st /\
  phases (useFrame count fr st) = phases st /\
  angles (useFrame count fr st) = angles st /\
  initialPositions (useFrame count fr st) = initialPositions st /\
  length (positions (useFrame count fr st)) = length (positions st).
Proof.
  unfold useFrame. simpl.
  match goal with
  | |- context [for_loop ?b ?n ?i ?s] =>
      pose proof (loop_same (elapsedTime fr)
                    (activePoints (viewport fr) (interactionPoints fr)) n i s) as H
  end.
  unfold same_but_positions in H. simpl in H. tauto.
Qed.

Lemma useFrame_windVelocity count fr st :
  windVelocity (useFrame count fr st) =
  MathUtils_lerp (windVelocity st) (targetWind (handInfluence fr)) 0.05.
Proof.
  unfold useFrame. simpl.
  match goal with
  | |- context [for_loop ?b ?n ?i ?s] =>
      pose proof (loop_same (elapsedTime fr)
                    (activePoints (viewport fr) (interactionPoints fr)) n i s) as H
  end.
  unfold same_but_positions in H. simpl in H. tauto.
Qed.

(** After a frame, particle [j] sits at the target computed from its
    initial position, the points of the frame and the smoothed wind. *)
Lemma useFrame_position count fr st j :
  (j < count)%nat ->
  (count * 3 <= length (positions st))%nat ->
  let out := positions (useFrame count fr st) in
  (aget out (j * 3), aget out (j * 3 + 1), aget out (j * 3 + 2)) =
  particleTarget (elapsedTime fr)
    (activePoints (viewport fr) (interactionPoints fr))
    (windVelocity (useFrame count fr st))
    (aget (initialPositions st) (j * 3))
    (aget (initialPositions st) (j * 3 + 1))
    (aget (initialPositions st) (j * 3 + 2)).
Proof.
  intros Hj Hlen out. subst out.
  rewrite useFrame_windVelocity.
  unfold useFrame. simpl.
  rewrite loop_positions_in by (simpl; lia).
  reflexivity.
Qed.

(** Entries of the position array past the [count] particles are not
    written. *)
Lemma useFrame_position_out count fr st k :
  (count * 3 <= k)%nat ->
  aget (positions (useFrame count fr st)) k = aget (positions st) k.
Proof.
  intros Hk. unfold useFrame. simpl.
  rewrite loop_positions_out by (simpl; lia). reflexivity.
Qed.

(** ** Real-number facts *)

Lemma MathUtils_lerp_is_lerp x y t : MathUtils_lerp x y t = lerp x y t.
Proof. unfold MathUtils_lerp, lerp. ring. Qed.

(** A point on the circle of radius [d], at any angle, is at distance [d]
    from the centre. *)
Lemma radius_of_rotation a d :
  0 <= d ->
  sqrt ((cos a * d) * (cos a * d) + (sin a * d) * (sin a * d)) = d.
Proof.
  intros Hd.
  replace ((cos a * d) * (cos a * d) + (sin a * d) * (sin a * d))
    with (d * d).
  - now apply sqrt_square.
  - pose proof (sin2_cos2 a) as H. unfold Rsqr in H.
    transitivity ((sin a * sin a + cos a * cos a) * (d * d)); [|ring].
    rewrite H. ring.
Qed.

Lemma dist_factor x y :
  x <> 0 ->
  sqrt (x * x + y * y) = Rabs x * sqrt (1 + (y / x)²).
Proof.
  intros Hx.
  replace (x * x + y * y) with (x² * (1 + (y / x)²)).
  - rewrite sqrt_mult.
    + now rewrite sqrt_Rsqr_abs.
    + apply Rle_0_sqr.
    + pose proof (Rle_0_sqr (y / x)). lra.
  - unfold Rsqr. field. exact Hx.
Qed.

Lemma sqrt_1_sqr_pos t : 0 < sqrt (1 + t²).
Proof. apply sqrt_lt_R0. pose proof (Rle_0_sqr t). lra. Qed.

(** [Math.atan2(y, x)] is the angle of [(x, y)]: with the distance to the
    centre it gives the point back. *)
Lemma atan2_polar x y :
  cos (atan2 y x) * sqrt (x * x + y * y) = x /\
  sin (atan2 y x) * sqrt (x * x + y * y) = y.
Proof.
  unfold atan2.
  destruct (Rlt_dec 0 x) as [Hpos|Hnpos].
  - rewrite dist_factor by lra. rewrite Rabs_right by lra.
    rewrite cos_atan, sin_atan.
    pose proof (sqrt_1_sqr_pos (y / x)) as Hs.
    split; field; lra.
  - destruct (Rlt_dec x 0) as [Hneg|Hnneg].
    + rewrite dist_factor by lra. rewrite Rabs_left by lra.
      pose proof (sqrt_1_sqr_pos (y / x)) as Hs.
      destruct (Rle_dec 0 y) as [Hy|Hy].
      * rewrite neg_cos, neg_sin, cos_atan, sin_atan. split; field; lra.
      * unfold Rminus. rewrite cos_plus, sin_plus, cos_neg, sin_neg.
        rewrite cos_PI, sin_PI, cos_atan, sin_atan. split; field; lra.
    + assert (x = 0) as -> by lra.
      replace (0 * 0 + y * y) with (y * y) by ring.
      destruct (Rlt_dec 0 y) as [Hy|Hy].
      * rewrite cos_PI2, sin_PI2, sqrt_square by lra. lra.
      * destruct (Rlt_dec y 0) as [Hy'|Hy'].
        -- rewrite cos_neg, sin_neg, cos_PI2, sin_PI2.
           replace (y * y) with ((- y) * (- y)) by ring.
           rewrite sqrt_square by lra. lra.
        -- assert (y = 0) as -> by lra.
           rewrite Rmult_0_l, sqrt_0. lra.
Qed.

Lemma INR_fact_val n z : Z.of_nat (fact n) = z -> INR (fact n) = IZR z.
Proof. intros <-. apply INR_IZR_INZ. Qed.

Lemma sin_3_2_bounds : 0.9973 < sin (3 / 2) < 0.9975.
Proof.
  assert (Hpi : 3 / 2 <= PI) by (pose proof PI2_1; lra).
  destruct (SIN (3 / 2) ltac:(lra) Hpi) as [Hlb Hub].
  unfold sin_lb, sin_ub, sin_approx, sin_term in Hlb, Hub.
  cbn [sum_f_R0 Nat.mul Nat.add pow] in Hlb, Hub.
  rewrite (INR_fact_val 1 1), (INR_fact_val 3 6), (INR_fact_val 5 120),
    (INR_fact_val 7 5040) in Hlb by (vm_compute; reflexivity).
  rewrite (INR_fact_val 1 1), (INR_fact_val 3 6), (INR_fact_val 5 120),
    (INR_fact_val 7 5040), (INR_fact_val 9 362880) in Hub
    by (vm_compute; reflexivity).
  split; lra.
Qed.

Lemma sin_half_pos : 0 < sin (1 * 0.5).
Proof. apply sin_gt_0; pose proof PI2_1; lra. Qed.

(** ** The target of one particle *)

Lemma particleTarget_unfold time pts wind x y z :
  particleTarget time pts wind x y z =
  let d := sqrt (x * x + y * y) in
  let a := currentAngleOf time x y in
  let t := fold_left applyPoint pts (cos a * d, sin a * d) in
  (fst t + wind * (1.0 - d / 20.0), snd t,
   z + sin (time * 0.5 + d * 0.5) * 0.3).
Proof.
  unfold particleTarget, currentAngleOf. cbv zeta.
  now destruct (fold_left applyPoint pts _) as [tx ty].
Qed.

(** At time 0, with no point and no wind, a particle is at its initial
    position in x and y; its depth is already off by the breathing term. *)
Lemma particleTarget_at_rest x y z d :
  0 <= d -> d * d = x * x + y * y ->
  particleTarget 0 [] 0 x y z = (x, y, z + sin (d * 0.5) * 0.3).
Proof.
  intros Hd Hsq.
  assert (Hdist : sqrt (x * x + y * y) = d) by (apply sqrt_lem_1; nra).
  rewrite particleTarget_unfold. cbv zeta. simpl fold_left. simpl fst. simpl snd.
  assert (Ha : currentAngleOf 0 x y = atan2 y x)
    by (unfold currentAngleOf; cbv zeta; ring).
  rewrite Ha.
  destruct (atan2_polar x y) as [Hc Hs]. rewrite Hc, Hs, Hdist.
  f_equal; [f_equal; ring|].
  f_equal. f_equal. f_equal. ring.
Qed.

Lemma aget_cons_0 x (l : list R) : aget (x :: l) 0 = x.
Proof. reflexivity. Qed.

Lemma aget_cons_S x (l : list R) k : aget (x :: l) (S k) = aget l k.
Proof. reflexivity. Qed.

(** Reading a literal array. *)
Ltac aget_list :=
  repeat rewrite aget_cons_S; repeat rewrite aget_cons_0.
Ltac aget_list_in H :=
  repeat rewrite aget_cons_S in H; repeat rewrite aget_cons_0 in H.

(** ** The end-to-end scenario *)

Lemma scenario_positions fr st :
  elapsedTime fr = 0 ->
  interactionPoints fr = [] ->
  windVelocity (useFrame 3 fr st) = 0 ->
  initialPositions st = scenario_initial ->
  length (positions st) = 9%nat ->
  positions (useFrame 3 fr st) =
  [1; 0; 0 + sin (1 * 0.5) * 0.3;
   0; 2; 0 + sin (2 * 0.5) * 0.3;
   -3; 0; 1 + sin (3 * 0.5) * 0.3].
Proof.
  intros Htime Hpts Hwind Hinit Hlen.
  assert (Hpos : forall j, (j < 3)%nat ->
            let out := positions (useFrame 3 fr st) in
            (aget out (j * 3), aget out (j * 3 + 1), aget out (j * 3 + 2)) =
            particleTarget 0 [] 0
              (aget scenario_initial (j * 3))
              (aget scenario_initial (j * 3 + 1))
              (aget scenario_initial (j * 3 + 2))).
  { intros j Hj out. subst out.
    rewrite useFrame_position by lia.
    now rewrite Htime, Hpts, Hwind, Hinit. }
  pose proof (Hpos 0%nat ltac:(lia)) as H0.
  pose proof (Hpos 1%nat ltac:(lia)) as H1.
  pose proof (Hpos 2%nat ltac:(lia)) as H2.
  clear Hpos. cbv zeta in H0, H1, H2.
  cbn [Nat.mul Nat.add] in H0, H1, H2.
  unfold scenario_initial in H0, H1, H2.
  aget_list_in H0. aget_list_in H1. aget_list_in H2.
  rewrite (particleTarget_at_rest 1 0 0 1) in H0 by lra.
  rewrite (particleTarget_at_rest 0 2 0 2) in H1 by lra.
  rewrite (particleTarget_at_rest (-3) 0 1 3) in H2 by lra.
  injection H0 as H00 H01 H02.
  injection H1 as H10 H11 H12.
  injection H2 as H20 H21 H22.
  apply aget_ext.
  - destruct (useFrame_same 3 fr st) as (_ & _ & _ & _ & _ & Hl).
    rewrite Hl, Hlen. reflexivity.
  - destruct (useFrame_same 3 fr st) as (_ & _ & _ & _ & _ & Hl).
    rewrite Hl, Hlen. intros k Hk.
    do 9 (destruct k as [|k];
          [aget_list; assumption|]).
    lia.
Qed.

(** C1, as amended: in the end-to-end scenario (three particles at
    (1,0,0), (0,2,0), (-3,0,1), time 0, no interaction point, wind 0) one
    frame leaves x and y of every particle at their initial values and adds
    sin(dist * 0.5) * 0.3 to the depth of each of the three particles; the
    third one ends at (-3, 0, 1 + sin(1.5) * 0.3), which is 1.299 to three
    decimals. *)
Theorem C1_scenario fr st :
  elapsedTime fr = 0 ->
  interactionPoints fr = [] ->
  windVelocity (useFrame 3 fr st) = 0 ->
  initialPositions st = scenario_initial ->
  length (positions st) = 9%nat ->
  positions (useFrame 3 fr st) =
  [1; 0; 0 + sin (1 * 0.5) * 0.3;
   0; 2; 0 + sin (2 * 0.5) * 0.3;
   -3; 0; 1 + sin (3 * 0.5) * 0.3] /\
  Rabs (particle_z (positions (useFrame 3 fr st)) 2 - 1.299) < 0.001.
Proof.
  intros Htime Hpts Hwind Hinit Hlen.
  rewrite (scenario_positions fr st) by assumption.
  split; [reflexivity|].
  unfold particle_z. cbn [Nat.mul Nat.add]. aget_list.
  replace (3 * 0.5) with (3 / 2) by lra.
  pose proof sin_3_2_bounds as Hb.
  apply Rabs_def1; lra.
Qed.

Lemma scenario_wind : windVelocity (useFrame 3 scenario_frame scenario_field) = 0.
Proof.
  rewrite useFrame_windVelocity.
  unfold MathUtils_lerp, targetWind, scenario_frame, scenario_field, no_hand.
  simpl. lra.
Defined.

Lemma C1_scenario_witness :
  positions (useFrame 3 scenario_frame scenario_field) =
  [1; 0; 0 + sin (1 * 0.5) * 0.3;
   0; 2; 0 + sin (2 * 0.5) * 0.3;
   -3; 0; 1 + sin (3 * 0.5) * 0.3] /\
  Rabs (particle_z (positions (useFrame 3 scenario_frame scenario_field)) 2
        - 1.299) < 0.001.
Proof.
  apply (C1_scenario scenario_frame scenario_field).
  - reflexivity.
  - reflexivity.
  - exact scenario_wind.
  - reflexivity.
  - reflexivity.
Defined.

(** C1 as written fails: the output is not the input with only the depth
    of the third particle changed; the depth of the first particle moves
    from 0 to sin(0.5) * 0.3 (and that of the second to sin(1) * 0.3). *)
Lemma C1_counterexample :
  positions (useFrame 3 scenario_frame scenario_field) <>
  [1; 0; 0; 0; 2; 0; -3; 0; 1 + sin (0 + 3 * 0.5) * 0.3].
Proof.
  rewrite (scenario_positions scenario_frame scenario_field)
    by (reflexivity || exact scenario_wind).
  intros H. injection H as H2 _ _.
  pose proof sin_half_pos. lra.
Qed.

(** ** Baseline motion *)

Lemma triple_inv {A B C : Type} (a a' : A) (b b' : B) (c c' : C) :
  (a, b, c) = (a', b', c') -> a = a' /\ b = b' /\ c = c'.
Proof. intros H. inversion H. auto. Qed.

Lemma activePoints_nil vp : activePoints vp [] = [].
Proof. reflexivity. Qed.

Lemma particleTarget_baseline time wind x y z :
  particleTarget time [] wind x y z =
  (cos (currentAngleOf time x y) * sqrt (x * x + y * y)
   + wind * (1.0 - sqrt (x * x + y * y) / 20.0),
   sin (currentAngleOf time x y) * sqrt (x * x + y * y),
   z + sin (time * 0.5 + sqrt (x * x + y * y) * 0.5) * 0.3).
Proof. rewrite particleTarget_unfold. reflexivity. Qed.

(** The three coordinates of particle [i] after a frame. *)
Lemma useFrame_particle count fr st i :
  (i < count)%nat ->
  (count * 3 <= length (positions st))%nat ->
  let out := positions (useFrame count fr st) in
  (particle_x out i, particle_y out i, particle_z out i) =
  particleTarget (elapsedTime fr)
    (activePoints (viewport fr) (interactionPoints fr))
    (windVelocity (useFrame count fr st))
    (particle_x (initialPositions st) i)
    (particle_y (initialPositions st) i)
    (particle_z (initialPositions st) i).
Proof. apply useFrame_position. Qed.

(** C2: with no interaction point and wind 0, a frame keeps every particle
    at its distance from the axis, sqrt(x^2 + y^2) of its initial position,
    at every time; and the depth it gives a particle depends on the time,
    the initial depth and that distance only: two particles (of any two
    fields) that agree on these get the same depth. *)
Theorem C2_radius_preserved count fr st i count' fr' st' i' :
  interactionPoints fr = [] ->
  windVelocity (useFrame count fr st) = 0 ->
  (i < count)%nat ->
  (count * 3 <= length (positions st))%nat ->
  interactionPoints fr' = [] ->
  windVelocity (useFrame count' fr' st') = 0 ->
  (i' < count')%nat ->
  (count' * 3 <= length (positions st'))%nat ->
  elapsedTime fr' = elapsedTime fr ->
  particle_z (initialPositions st') i' = particle_z (initialPositions st) i ->
  xy_radius (initialPositions st') i' = xy_radius (initialPositions st) i ->
  xy_radius (positions (useFrame count fr st)) i =
    xy_radius (initialPositions st) i /\
  particle_z (positions (useFrame count' fr' st')) i' =
    particle_z (positions (useFrame count fr st)) i.
Proof.
  intros Hpts Hwind Hi Hlen Hpts' Hwind' Hi' Hlen' Htime Hz Hd.
  pose proof (useFrame_particle count fr st i Hi Hlen) as H.
  pose proof (useFrame_particle count' fr' st' i' Hi' Hlen') as H'.
  cbv zeta in H, H'.
  rewrite Hpts, Hwind, activePoints_nil, particleTarget_baseline in H.
  rewrite Hpts', Hwind', activePoints_nil, particleTarget_baseline in H'.
  apply triple_inv in H as (Hx & Hy & Hzo).
  apply triple_inv in H' as (Hx' & Hy' & Hzo').
  split.
  - unfold xy_radius at 1. rewrite Hx, Hy.
    fold (xy_radius (initialPositions st) i).
    rewrite Rmult_0_l, Rplus_0_r.
    apply radius_of_rotation. apply sqrt_pos.
  - rewrite Hzo, Hzo'.
    fold (xy_radius (initialPositions st) i).
    fold (xy_radius (initialPositions st') i').
    now rewrite Hz, Hd, Htime.
Qed.

Lemma mirror_wind : windVelocity (useFrame 1 scenario_frame mirror_field) = 0.
Proof.
  rewrite useFrame_windVelocity.
  unfold MathUtils_lerp, targetWind, scenario_frame, mirror_field, no_hand.
  simpl. lra.
Defined.

Lemma mirror_radius :
  xy_radius (initialPositions mirror_field) 0 =
  xy_radius (initialPositions scenario_field) 2.
Proof.
  unfold xy_radius, particle_x, particle_y, mirror_field, scenario_field,
    scenario_initial.
  cbn [initialPositions Nat.mul Nat.add]. aget_list.
  rewrite (sqrt_lem_1 (3 * 3 + 0 * 0) 3) by lra.
  rewrite (sqrt_lem_1 (-3 * -3 + 0 * 0) 3) by lra.
  reflexivity.
Defined.

Lemma C2_radius_preserved_witness :
  xy_radius (positions (useFrame 3 scenario_frame scenario_field)) 2 =
    xy_radius (initialPositions scenario_field) 2 /\
  particle_z (positions (useFrame 1 scenario_frame mirror_field)) 0 =
    particle_z (positions (useFrame 3 scenario_frame scenario_field)) 2.
Proof.
  apply (C2_radius_preserved 3 scenario_frame scenario_field 2
                             1 scenario_frame mirror_field 0).
  - reflexivity.
  - exact scenario_wind.
  - lia.
  - simpl. lia.
  - reflexivity.
  - exact mirror_wind.
  - lia.
  - simpl. lia.
  - reflexivity.
  - reflexivity.
  - exact mirror_radius.
Defined.

(** ** Determinism and the frame condition *)

Lemma triple_index k count :
  (k < count * 3)%nat ->
  exists j c, (j < count)%nat /\ (c < 3)%nat /\ k = (j * 3 + c)%nat.
Proof.
  intros Hk. exists (k / 3)%nat, (k mod 3)%nat.
  pose proof (Nat.div_mod_eq k 3) as Hdm.
  pose proof (Nat.mod_upper_bound k 3 ltac:(lia)) as Hm.
  repeat split; lia.
Qed.

(** An array of [count] triples is determined by its particles. *)
Lemma positions_from_particles (a b : list R) count :
  length a = (count * 3)%nat ->
  length b = (count * 3)%nat ->
  (forall j, (j < count)%nat ->
     (particle_x a j, particle_y a j, particle_z a j) =
     (particle_x b j, particle_y b j, particle_z b j)) ->
  a = b.
Proof.
  intros Ha Hb Hp. apply aget_ext; [congruence|].
  intros k Hk. rewrite Ha in Hk.
  destruct (triple_index k count Hk) as (j & c & Hj & Hc & ->).
  apply Hp in Hj. apply triple_inv in Hj as (Hx & Hy & Hz).
  unfold particle_x, particle_y, particle_z in Hx, Hy, Hz.
  destruct c as [|[|[|c]]]; [| | |lia].
  - now rewrite Nat.add_0_r.
  - exact Hy.
  - exact Hz.
Qed.

(** The positions a frame writes are a function of the time, the initial
    positions, the scaled interaction points and the smoothed wind; the
    position array it overwrites plays no part. *)
Lemma useFrame_positions_eq count f1 s1 f2 s2 :
  elapsedTime f1 = elapsedTime f2 ->
  initialPositions s1 = initialPositions s2 ->
  activePoints (viewport f1) (interactionPoints f1) =
    activePoints (viewport f2) (interactionPoints f2) ->
  windVelocity (useFrame count f1 s1) = windVelocity (useFrame count f2 s2) ->
  length (positions s1) = (count * 3)%nat ->
  length (positions s2) = (count * 3)%nat ->
  positions (useFrame count f1 s1) = positions (useFrame count f2 s2).
Proof.
  intros Htime Hinit Hpts Hwind Hl1 Hl2.
  destruct (useFrame_same count f1 s1) as (_ & _ & _ & _ & _ & Hlen1).
  destruct (useFrame_same count f2 s2) as (_ & _ & _ & _ & _ & Hlen2).
  apply positions_from_particles with (count := count); [congruence..|].
  intros j Hj.
  rewrite !useFrame_particle by lia.
  now rewrite Htime, Hinit, Hpts, Hwind.
Qed.

(** C3: the frame update is deterministic.  Two invocations at the same
    time, on the same initial positions, with the same interaction snapshot
    and the same wind velocity write the same position array, whatever the
    position array, the rotation and the other fields were before; and an
    invocation leaves the initial positions as they were, so that nothing
    but the wind velocity and the rotation is carried to the next one. *)
Theorem C3_deterministic count f1 s1 f2 s2 :
  elapsedTime f1 = elapsedTime f2 ->
  initialPositions s1 = initialPositions s2 ->
  activePoints (viewport f1) (interactionPoints f1) =
    activePoints (viewport f2) (interactionPoints f2) ->
  windVelocity (useFrame count f1 s1) = windVelocity (useFrame count f2 s2) ->
  length (positions s1) = (count * 3)%nat ->
  length (positions s2) = (count * 3)%nat ->
  positions (useFrame count f1 s1) = positions (useFrame count f2 s2) /\
  initialPositions (useFrame count f1 s1) =
    initialPositions (useFrame count f2 s2).
Proof.
  intros Htime Hinit Hpts Hwind Hl1 Hl2. split.
  - now apply useFrame_positions_eq.
  - destruct (useFrame_same count f1 s1) as (_ & _ & _ & _ & H1 & _).
    destruct (useFrame_same count f2 s2) as (_ & _ & _ & _ & H2 & _).
    congruence.
Qed.

Lemma scenario_later_wind :
  windVelocity (useFrame 3 scenario_frame scenario_field_later) = 0.
Proof.
  rewrite useFrame_windVelocity.
  unfold MathUtils_lerp, targetWind, scenario_frame, scenario_field_later,
    no_hand.
  simpl. lra.
Defined.

Lemma C3_deterministic_witness :
  positions (useFrame 3 scenario_frame scenario_field) =
    positions (useFrame 3 scenario_frame scenario_field_later) /\
  initialPositions (useFrame 3 scenario_frame scenario_field) =
    initialPositions (useFrame 3 scenario_frame scenario_field_later).
Proof.
  apply (C3_deterministic 3 scenario_frame scenario_field
                          scenario_frame scenario_field_later).
  - reflexivity.
  - reflexivity.
  - reflexivity.
  - rewrite scenario_wind, scenario_later_wind. reflexivity.
  - reflexivity.
  - reflexivity.
Defined.

(** C8: a frame leaves the colour, size, phase and angle arrays and the
    initial positions as they were, and the positions it writes are
    computed from the initial positions, not from the positions of the
    frame before: a field [st'] with the same initial positions and wind
    velocity and any other position array gets the same positions. *)
Theorem C8_only_positions_written count fr st st' :
  initialPositions st' = initialPositions st ->
  windVelocity st' = windVelocity st ->
  length (positions st) = (count * 3)%nat ->
  length (positions st') = (count * 3)%nat ->
  colors (useFrame count fr st) = colors st /\
  sizes (useFrame count fr st) = sizes st /\
  phases (useFrame count fr st) = phases st /\
  angles (useFrame count fr st) = angles st /\
  initialPositions (useFrame count fr st) = initialPositions st /\
  positions (useFrame count fr st') = positions (useFrame count fr st).
Proof.
  intros Hinit Hwind Hl Hl'.
  destruct (useFrame_same count fr st) as (Hc & Hs & Hp & Ha & Hi & _).
  repeat split; try assumption.
  apply useFrame_positions_eq; try assumption; try reflexivity.
  rewrite !useFrame_windVelocity. now rewrite Hwind.
Qed.

Lemma C8_only_positions_written_witness :
  colors (useFrame 3 scenario_frame scenario_field) = colors scenario_field /\
  sizes (useFrame 3 scenario_frame scenario_field) = sizes scenario_field /\
  phases (useFrame 3 scenario_frame scenario_field) = phases scenario_field /\
  angles (useFrame 3 scenario_frame scenario_field) = angles scenario_field /\
  initialPositions (useFrame 3 scenario_frame scenario_field) =
    initialPositions scenario_field /\
  positions (useFrame 3 scenario_frame scenario_field_later) =
    positions (useFrame 3 scenario_frame scenario_field).
Proof.
  apply (C8_only_positions_written 3 scenario_frame scenario_field
                                   scenario_field_later).
  - reflexivity.
  - reflexivity.
  - reflexivity.
  - reflexivity.
Defined.

(** ** The wind smoother *)

Lemma useFrame_inactive_wind count fr st :
  inactive fr ->
  windVelocity (useFrame count fr st) = windVelocity st * 0.95.
Proof.
  intros Hoff. rewrite useFrame_windVelocity.
  unfold targetWind. rewrite Hoff. unfold MathUtils_lerp. lra.
Qed.

Lemma run_frames_inactive_wind count frs : forall st,
  Forall inactive frs ->
  windVelocity (run_frames count frs st) = windVelocity st * 0.95 ^ length frs.
Proof.
  induction frs as [|fr frs IH]; intros st Hoff.
  - simpl. lra.
  - inversion Hoff as [|? ? Hfr Hfrs]; subst.
    change (run_frames count (fr :: frs) st)
      with (run_frames count frs (useFrame count fr st)).
    rewrite IH by assumption.
    rewrite useFrame_inactive_wind by assumption. simpl. ring.
Qed.

(** In exact arithmetic: while the hand is inactive, a frame never
    increases the magnitude of the wind velocity and strictly decreases it
    unless it is 0; and over enough inactive frames in a row it comes as
    close to 0 as wanted. *)
Lemma wind_decay_exact count fr st :
  inactive fr ->
  Rabs (windVelocity (useFrame count fr st)) <= Rabs (windVelocity st) /\
  (windVelocity st <> 0 ->
   Rabs (windVelocity (useFrame count fr st)) < Rabs (windVelocity st)) /\
  (forall eps, 0 < eps ->
   exists N, forall frs,
     Forall inactive frs -> (N <= length frs)%nat ->
     Rabs (windVelocity (run_frames count frs st)) < eps).
Proof.
  intros Hoff.
  rewrite useFrame_inactive_wind by assumption.
  rewrite Rabs_mult, (Rabs_right 0.95) by lra.
  pose proof (Rabs_pos (windVelocity st)) as Hpos.
  split; [lra|]. split.
  - intros Hne. apply Rabs_pos_lt in Hne. lra.
  - intros eps Heps.
    assert (Hq : 0 < eps / (Rabs (windVelocity st) + 1))
      by (apply Rdiv_lt_0_compat; lra).
    destruct (pow_lt_1_zero 0.95 ltac:(rewrite Rabs_right; lra) _ Hq)
      as [N HN].
    exists N. intros frs Hfrs Hlen.
    rewrite run_frames_inactive_wind by assumption.
    rewrite Rabs_mult.
    specialize (HN (length frs) ltac:(lia)).
    pose proof (Rabs_pos (0.95 ^ length frs)) as Hp.
    apply Rle_lt_trans
      with (Rabs (windVelocity st) * (eps / (Rabs (windVelocity st) + 1))).
    + apply Rmult_le_compat_l; lra.
    + unfold Rdiv. rewrite <- Rmult_assoc, (Rmult_comm _ eps), Rmult_assoc.
      rewrite <- (Rmult_1_r eps) at 2.
      apply Rmult_lt_compat_l; [assumption|].
      apply (Rmult_lt_reg_r (Rabs (windVelocity st) + 1)); [lra|].
      rewrite Rmult_assoc, Rinv_l by lra. lra.
Qed.

(** ** The wind term *)

Lemma particleTarget_wind time pts wind x y z :
  particleTarget time pts wind x y z =
  let b := particleTarget time pts 0 x y z in
  (fst (fst b) + wind * (1.0 - sqrt (x * x + y * y) / 20.0),
   snd (fst b), snd b).
Proof.
  rewrite !particleTarget_unfold. cbv zeta. simpl.
  f_equal. f_equal. ring.
Qed.

Lemma useFrame_calm_still_wind count fr st :
  windVelocity (useFrame count (calm fr) (still st)) = 0.
Proof.
  rewrite useFrame_windVelocity.
  unfold MathUtils_lerp, targetWind, calm, still, no_hand. simpl. lra.
Qed.

(** At time 0 with no point the rotation has not begun: only the wind term
    and the breathing term are added. *)
Lemma particleTarget_time0 wind x y z d :
  0 <= d -> d * d = x * x + y * y ->
  particleTarget 0 [] wind x y z =
  (x + wind * (1.0 - d / 20.0), y, z + sin (d * 0.5) * 0.3).
Proof.
  intros Hd Hsq.
  rewrite particleTarget_wind, (particleTarget_at_rest x y z d) by assumption.
  cbv zeta. simpl.
  replace (sqrt (x * x + y * y)) with d
    by (symmetry; apply sqrt_lem_1; nra).
  reflexivity.
Qed.

(** In any field: the wind moves a particle by
    windVelocity * (1.0 - dist / 20.0) along x and not at all along y and
    z (against the same frame with no wind).  The factor is at most 1, is
    1 at the centre only and gets smaller as dist grows; it is positive
    for dist < 20, zero at dist = 20 only, and negative for dist > 20. *)
Lemma wind_displacement_formula count fr st i i' :
  (i < count)%nat ->
  (count * 3 <= length (positions st))%nat ->
  let out := positions (useFrame count fr st) in
  let base := positions (useFrame count (calm fr) (still st)) in
  let w := windVelocity (useFrame count fr st) in
  let d := xy_radius (initialPositions st) i in
  let d' := xy_radius (initialPositions st) i' in
  particle_x out i = particle_x base i + w * (1.0 - d / 20.0) /\
  particle_y out i = particle_y base i /\
  particle_z out i = particle_z base i /\
  1.0 - d / 20.0 <= 1 /\
  (1.0 - d / 20.0 = 1 <-> d = 0) /\
  (d <= d' -> 1.0 - d' / 20.0 <= 1.0 - d / 20.0) /\
  (d < 20 -> 0 < 1.0 - d / 20.0) /\
  (1.0 - d / 20.0 = 0 <-> d = 20) /\
  (20 < d -> 1.0 - d / 20.0 < 0).
Proof.
  intros Hi Hlen out base w d d'.
  pose proof (useFrame_particle count fr st i Hi Hlen) as H.
  pose proof (useFrame_particle count (calm fr) (still st) i Hi Hlen) as H0.
  cbv zeta in H, H0.
  rewrite useFrame_calm_still_wind in H0.
  rewrite particleTarget_wind in H. cbv zeta in H.
  change (initialPositions (still st)) with (initialPositions st) in H0.
  change (elapsedTime (calm fr)) with (elapsedTime fr) in H0.
  change (viewport (calm fr)) with (viewport fr) in H0.
  change (interactionPoints (calm fr)) with (interactionPoints fr) in H0.
  rewrite <- H0 in H. simpl fst in H. simpl snd in H.
  apply triple_inv in H as (Hx & Hy & Hz).
  assert (Hd : 0 <= d) by apply sqrt_pos.
  subst out base w. fold d in Hx.
  repeat split; try assumption; intros; lra.
Qed.

Lemma far_field_wind :
  windVelocity (useFrame 1 scenario_frame far_field) = 19.
Proof.
  rewrite useFrame_windVelocity.
  unfold MathUtils_lerp, targetWind, scenario_frame, far_field, no_hand.
  simpl. lra.
Qed.

(** Off the ring of the initial positions the factor changes sign: a
    particle put at distance 40 is moved against the wind; in a wind of 19
    it ends at x = 21, not at the x = 40 of the frame with no wind. *)
Lemma wind_reverses_beyond_20 :
  20 <= xy_radius (initialPositions far_field) 0 /\
  particle_x (positions (useFrame 1 scenario_frame far_field)) 0 = 21 /\
  particle_x
    (positions (useFrame 1 (calm scenario_frame) (still far_field))) 0 = 40.
Proof.
  assert (Hd : xy_radius (initialPositions far_field) 0 = 40).
  { unfold xy_radius, particle_x, particle_y, far_field. simpl.
    aget_list. apply sqrt_lem_1; lra. }
  split; [lra|].
  pose proof (useFrame_particle 1 scenario_frame far_field 0
                ltac:(lia) ltac:(simpl; lia)) as H.
  pose proof (useFrame_particle 1 (calm scenario_frame) (still far_field) 0
                ltac:(lia) ltac:(simpl; lia)) as H0.
  cbv zeta in H, H0.
  rewrite far_field_wind in H. rewrite useFrame_calm_still_wind in H0.
  unfold particle_x at 2, particle_y at 2, particle_z at 2 in H.
  unfold particle_x at 2, particle_y at 2, particle_z at 2 in H0.
  cbn [elapsedTime viewport interactionPoints initialPositions calm still
       scenario_frame far_field Nat.mul Nat.add] in H, H0.
  rewrite activePoints_nil in H, H0.
  aget_list_in H. aget_list_in H0.
  rewrite (particleTarget_time0 19 40 0 0 40) in H by lra.
  rewrite (particleTarget_time0 0 40 0 0 40) in H0 by lra.
  apply triple_inv in H as (Hx & _ & _).
  apply triple_inv in H0 as (Hx0 & _ & _).
  rewrite Hx, Hx0. lra.
Qed.

(** ** One interaction point at the centre *)

(** The push of a resting point at the centre on a target at distance
    [r] from the centre. *)
Lemma applyPoint_origin vp id tx ty r :
  0 <= r -> r * r = tx * tx + ty * ty ->
  fold_left applyPoint (activePoints vp [(id, origin_point)]) (tx, ty) =
  if Rlt_dec r 4
  then (tx + tx * ((4 - r) / 4) * 0.3, ty + ty * ((4 - r) / 4) * 0.3)
  else (tx, ty).
Proof.
  intros Hr Hsq. unfold activePoints, origin_point. simpl.
  replace (0 * 0 + 0 * 0) with 0 by ring. rewrite sqrt_0.
  replace (sqrt ((tx - 0 * vp_width vp / 2) * (tx - 0 * vp_width vp / 2) +
                 (ty - 0 * vp_height vp / 2) * (ty - 0 * vp_height vp / 2)))
    with r.
  2:{ symmetry. apply sqrt_lem_1; [nra | assumption | rewrite Hsq; field]. }
  replace (4 + 0 * 10) with 4 by ring.
  destruct (Rlt_dec r 4); [|reflexivity].
  f_equal; field.
Qed.

Lemma particleTarget_origin_point time vp id wind x y z :
  let d := sqrt (x * x + y * y) in
  let a := currentAngleOf time x y in
  particleTarget time (activePoints vp [(id, origin_point)]) wind x y z =
  if Rlt_dec d 4
  then (cos a * d + cos a * d * ((4 - d) / 4) * 0.3
          + wind * (1.0 - d / 20.0),
        sin a * d + sin a * d * ((4 - d) / 4) * 0.3,
        z + sin (time * 0.5 + d * 0.5) * 0.3)
  else particleTarget time [] wind x y z.
Proof.
  intros d a. rewrite particleTarget_unfold. cbv zeta. fold d a.
  rewrite (applyPoint_origin vp id (cos a * d) (sin a * d) d).
  - destruct (Rlt_dec d 4); [reflexivity|].
    rewrite particleTarget_baseline. reflexivity.
  - apply sqrt_pos.
  - pose proof (sin2_cos2 a) as H. unfold Rsqr in H.
    transitivity ((sin a * sin a + cos a * cos a) * (d * d)); [|ring].
    rewrite H. ring.
Qed.

Lemma useFrame_without_points_wind count fr st :
  windVelocity (useFrame count (without_points fr) st) =
  windVelocity (useFrame count fr st).
Proof. rewrite !useFrame_windVelocity. reflexivity. Qed.

(** The two runs that C5 compares, particle by particle. *)
Lemma origin_point_runs count fr st id i :
  interactionPoints fr = [(id, origin_point)] ->
  (i < count)%nat ->
  (count * 3 <= length (positions st))%nat ->
  let out := positions (useFrame count fr st) in
  let base := positions (useFrame count (without_points fr) st) in
  let w := windVelocity (useFrame count fr st) in
  let d := xy_radius (initialPositions st) i in
  let a := currentAngleOf (elapsedTime fr)
             (particle_x (initialPositions st) i)
             (particle_y (initialPositions st) i) in
  particle_x base i = cos a * d + w * (1.0 - d / 20.0) /\
  particle_y base i = sin a * d /\
  (d < 4 ->
   particle_x out i = particle_x base i + cos a * d * ((4 - d) / 4) * 0.3 /\
   particle_y out i = particle_y base i + sin a * d * ((4 - d) / 4) * 0.3 /\
   particle_z out i = particle_z base i) /\
  (4 <= d ->
   particle_x out i = particle_x base i /\
   particle_y out i = particle_y base i /\
   particle_z out i = particle_z base i).
Proof.
  intros Hpts Hi Hlen out base w d a.
  pose proof (useFrame_particle count fr st i Hi Hlen) as H.
  pose proof (useFrame_particle count (without_points fr) st i Hi Hlen) as H0.
  cbv zeta in H, H0.
  rewrite useFrame_without_points_wind in H0. fold w in H, H0.
  change (elapsedTime (without_points fr)) with (elapsedTime fr) in H0.
  change (interactionPoints (without_points fr))
    with (@nil (Z * InteractionPoint)) in H0.
  rewrite activePoints_nil, particleTarget_baseline in H0.
  rewrite Hpts, particleTarget_origin_point in H.
  cbv zeta in H. fold (xy_radius (initialPositions st) i) in H, H0.
  fold d in H, H0. fold a in H, H0.
  apply triple_inv in H0 as (Hx0 & Hy0 & Hz0).
  fold base in Hx0, Hy0, Hz0. fold out in H.
  split; [assumption|]. split; [assumption|]. split.
  - intros Hd. destruct (Rlt_dec d 4) as [_|Hn]; [|lra].
    apply triple_inv in H as (Hx & Hy & Hz).
    rewrite Hx, Hy, Hz, Hx0, Hy0, Hz0. repeat split; ring.
  - intros Hd. destruct (Rlt_dec d 4) as [Hn|_]; [lra|].
    rewrite particleTarget_baseline in H.
    fold (xy_radius (initialPositions st) i) in H. fold d in H. fold a in H.
    apply triple_inv in H as (Hx & Hy & Hz).
    rewrite Hx, Hy, Hz, Hx0, Hy0, Hz0. repeat split; reflexivity.
Qed.


(** Off the ring of the initial positions: a particle at dist = 0 is not
    displaced by the point at the centre; the frame writes the positions
    it writes with no point. *)
Lemma centre_particle_not_pushed :
  xy_radius (initialPositions origin_field) 0 < 4 /\
  positions (useFrame 1 origin_frame origin_field) =
  positions (useFrame 1 (without_points origin_frame) origin_field).
Proof.
  assert (Hd : xy_radius (initialPositions origin_field) 0 = 0).
  { unfold xy_radius, particle_x, particle_y, origin_field. simpl.
    aget_list. apply sqrt_lem_1; lra. }
  split; [lra|].
  destruct (useFrame_same 1 origin_frame origin_field)
    as (_ & _ & _ & _ & _ & Hl).
  destruct (useFrame_same 1 (without_points origin_frame) origin_field)
    as (_ & _ & _ & _ & _ & Hl0).
  apply positions_from_particles with (count := 1%nat);
    [rewrite Hl; reflexivity | rewrite Hl0; reflexivity |].
  intros j Hj. assert (j = 0)%nat as -> by lia.
  destruct (origin_point_runs 1 origin_frame origin_field 1%Z 0
              eq_refl ltac:(lia) ltac:(simpl; lia))
    as (_ & _ & Hin & _).
  cbv zeta in Hin. rewrite Hd in Hin.
  destruct (Hin ltac:(lra)) as (Hx & Hy & Hz).
  rewrite Hz.
  replace (particle_x (positions (useFrame 1 origin_frame origin_field)) 0)
    with (particle_x (positions (useFrame 1 (without_points origin_frame)
                                    origin_field)) 0)
    by (rewrite Hx; ring).
  replace (particle_y (positions (useFrame 1 origin_frame origin_field)) 0)
    with (particle_y (positions (useFrame 1 (without_points origin_frame)
                                    origin_field)) 0)
    by (rewrite Hy; ring).
  reflexivity.
Qed.

(** ** The interaction points *)

Section JsMapFacts.
Context {V : Type}.
Implicit Types (m : list (Z * V)) (k : Z) (v : V).

Lemma Map_get_set_eq k v m : App.Map_get k (App.Map_set k v m) = Some v.
Proof.
  induction m as [|[k' v'] m IH]; simpl.
  - now rewrite Z.eqb_refl.
  - destruct (Z.eqb k' k) eqn:E; simpl.
    + now rewrite Z.eqb_refl.
    + now rewrite E.
Qed.

Lemma Map_get_set_ne k k' v m :
  k <> k' -> App.Map_get k' (App.Map_set k v m) = App.Map_get k' m.
Proof.
  intros Hne. induction m as [|[k0 v0] m IH]; simpl.
  - apply Z.eqb_neq in Hne. now rewrite Hne.
  - destruct (Z.eqb k0 k) eqn:E; simpl.
    + apply Z.eqb_eq in E. subst k0.
      apply Z.eqb_neq in Hne. now rewrite Hne.
    + destruct (Z.eqb k0 k'); [reflexivity | exact IH].
Qed.

Lemma Map_get_delete_eq k m : App.Map_get k (App.Map_delete k m) = None.
Proof.
  induction m as [|[k' v'] m IH]; simpl; [reflexivity|].
  destruct (Z.eqb k' k) eqn:E; simpl; [exact IH|].
  now rewrite E.
Qed.

Lemma Map_get_delete_ne k k' m :
  k <> k' -> App.Map_get k' (App.Map_delete k m) = App.Map_get k' m.
Proof.
  intros Hne. induction m as [|[k0 v0] m IH]; simpl; [reflexivity|].
  destruct (Z.eqb k0 k) eqn:E; simpl.
  - apply Z.eqb_eq in E. subst k0.
    apply Z.eqb_neq in Hne. now rewrite Hne.
  - destruct (Z.eqb k0 k'); [reflexivity | exact IH].
Qed.
End JsMapFacts.

(** An id is in the map of points exactly when its last raw position is
    kept: true at the start and kept by every handler. *)
Lemma initialRefs_same_ids : same_ids App.initialRefs.
Proof. intros k. simpl. tauto. Qed.

Lemma dispatch_same_ids w ev r : same_ids r -> same_ids (App.dispatch w ev r).
Proof.
  intros Hinv k. destruct ev as [e|e|e]; simpl.
  - destruct (Z.eq_dec (App.pointerId e) k) as [->|Hne].
    + rewrite !Map_get_set_eq. split; discriminate.
    + rewrite !Map_get_set_ne by assumption. apply Hinv.
  - unfold App.handlePointerMove.
    destruct (App.Map_get (App.pointerId e) (App.lastPointerPositions r));
      [|apply Hinv].
    simpl. destruct (Z.eq_dec (App.pointerId e) k) as [->|Hne].
    + rewrite !Map_get_set_eq. split; discriminate.
    + rewrite !Map_get_set_ne by assumption. apply Hinv.
  - destruct (Z.eq_dec (App.pointerId e) k) as [->|Hne].
    + rewrite !Map_get_delete_eq. tauto.
    + rewrite !Map_get_delete_ne by assumption. apply Hinv.
Qed.

(** C6: the pointer handlers are the aggregator's upsert and remove.  On
    an id that is absent, [handlePointerDown] is the upsert: the point is
    stored with velocity (0, 0).  On an id that is present,
    [handlePointerMove] is the upsert: the velocity is the new position
    minus the raw position stored last, which is replaced by the new one.
    After [handlePointerUp] the id is absent from both maps, so the next
    [handlePointerDown] of that id stores velocity (0, 0), and the move
    after it measures its velocity from that new position. *)
Theorem C6_upsert w e r :
  let id := App.pointerId e in
  let x := App.normX w e in
  let y := App.normY w e in
  (App.Map_get id (App.lastPointerPositions r) = None ->
   App.handlePointerDown w e r = App.spec_upsert id x y r /\
   App.Map_get id (App.interactionPoints (App.handlePointerDown w e r)) =
     Some {| pt_x := x; pt_y := y; pt_vx := 0; pt_vy := 0 |} /\
   App.Map_get id (App.lastPointerPositions (App.handlePointerDown w e r)) =
     Some {| App.pos_x := x; App.pos_y := y |}) /\
  (forall last,
   App.Map_get id (App.lastPointerPositions r) = Some last ->
   App.handlePointerMove w e r = App.spec_upsert id x y r /\
   App.Map_get id (App.interactionPoints (App.handlePointerMove w e r)) =
     Some {| pt_x := x; pt_y := y;
             pt_vx := x - App.pos_x last; pt_vy := y - App.pos_y last |} /\
   App.Map_get id (App.lastPointerPositions (App.handlePointerMove w e r)) =
     Some {| App.pos_x := x; App.pos_y := y |}) /\
  (forall e0 e2,
   App.pointerId e0 = id -> App.pointerId e2 = id ->
   let removed := App.handlePointerUp e0 r in
   let again := App.handlePointerDown w e removed in
   App.Map_get id (App.interactionPoints removed) = None /\
   App.Map_get id (App.lastPointerPositions removed) = None /\
   App.Map_get id (App.interactionPoints again) =
     Some {| pt_x := x; pt_y := y; pt_vx := 0; pt_vy := 0 |} /\
   App.Map_get id (App.interactionPoints (App.handlePointerMove w e2 again)) =
     Some {| pt_x := App.normX w e2; pt_y := App.normY w e2;
             pt_vx := App.normX w e2 - x; pt_vy := App.normY w e2 - y |}).
Proof.
  intros id x y. split; [|split].
  - intros Habs. unfold App.spec_upsert. rewrite Habs.
    unfold App.handlePointerDown. fold id x y.
    split; [reflexivity|]. simpl. now rewrite !Map_get_set_eq.
  - intros last Hlast. unfold App.spec_upsert, App.handlePointerMove.
    fold id x y. rewrite Hlast.
    split; [reflexivity|]. simpl. now rewrite !Map_get_set_eq.
  - intros e0 e2 He0 He2 removed again. subst removed again.
    unfold App.handlePointerUp. rewrite He0. simpl.
    rewrite !Map_get_delete_eq.
    split; [reflexivity|]. split; [reflexivity|].
    fold id x y. rewrite Map_get_set_eq.
    split; [reflexivity|].
    unfold App.handlePointerMove, App.handlePointerDown. simpl.
    rewrite He2. fold id. rewrite Map_get_set_eq. simpl.
    now rewrite Map_get_set_eq.
Qed.

Lemma C6_upsert_witness :
  App.Map_get 1%Z
    (App.interactionPoints
       (App.handlePointerDown window0 pointer_mid App.initialRefs)) =
    Some {| pt_x := App.normX window0 pointer_mid;
            pt_y := App.normY window0 pointer_mid;
            pt_vx := 0; pt_vy := 0 |} /\
  App.Map_get 1%Z
    (App.interactionPoints
       (App.handlePointerMove window0 pointer_right refs_pressed)) =
    Some {| pt_x := App.normX window0 pointer_right;
            pt_y := App.normY window0 pointer_right;
            pt_vx := App.normX window0 pointer_right
                     - App.normX window0 pointer_mid;
            pt_vy := App.normY window0 pointer_right
                     - App.normY window0 pointer_mid |}.
Proof.
  split.
  - apply (proj1 (C6_upsert window0 pointer_mid App.initialRefs)).
    reflexivity.
  - apply (proj1 (proj2 (C6_upsert window0 pointer_right refs_pressed))
             {| App.pos_x := App.normX window0 pointer_mid;
                App.pos_y := App.normY window0 pointer_mid |}).
    reflexivity.
Defined.

(** ** The gesture signal on binary64 values *)

Lemma Binary64_add_NaN x : Binary64.add x Binary64.NaN = Binary64.NaN.
Proof. now destruct x. Qed.

Lemma Binary64_mul_NaN_l y : Binary64.mul Binary64.NaN y = Binary64.NaN.
Proof. reflexivity. Qed.

Lemma Binary64_sub_NaN_l y : Binary64.sub Binary64.NaN y = Binary64.NaN.
Proof. reflexivity. Qed.

(** C9, as amended: the frame callback has no range check on the gesture
    signal.  With active = false the wind target is 0 whatever velocityX
    is, NaN included, and the wind velocity is smoothed toward 0; with
    active = true the target is velocityX * -15 as it comes: for
    velocityX = NaN the target is NaN and the smoothed wind velocity is
    NaN, whatever it was before (with the interpolation written as
    three.js does or as utils/math.ts does). *)
Theorem C9_no_range_check (w vx : Binary64.number) :
  Binary64.targetWind
    {| Binary64.hand_vx := vx; Binary64.hand_active := false |} =
    Binary64.zero /\
  Binary64.smoothedWind w
    {| Binary64.hand_vx := vx; Binary64.hand_active := false |} =
    Binary64.smoothedWind w
      {| Binary64.hand_vx := Binary64.zero; Binary64.hand_active := false |} /\
  Binary64.targetWind
    {| Binary64.hand_vx := Binary64.NaN; Binary64.hand_active := true |} =
    Binary64.NaN /\
  Binary64.smoothedWind w
    {| Binary64.hand_vx := Binary64.NaN; Binary64.hand_active := true |} =
    Binary64.NaN /\
  Binary64.lerp w
    (Binary64.targetWind
       {| Binary64.hand_vx := Binary64.NaN; Binary64.hand_active := true |})
    Binary64.alpha = Binary64.NaN.
Proof.
  split; [reflexivity|]. split; [reflexivity|]. split; [reflexivity|].
  unfold Binary64.smoothedWind, Binary64.MathUtils_lerp, Binary64.lerp,
    Binary64.targetWind.
  cbn [Binary64.hand_active Binary64.hand_vx].
  rewrite Binary64_mul_NaN_l, Binary64_sub_NaN_l, Binary64_mul_NaN_l.
  replace (Binary64.mul Binary64.alpha Binary64.NaN) with Binary64.NaN
    by reflexivity.
  split; apply Binary64_add_NaN.
Qed.

(** C9 as written fails: a NaN velocity of an active hand is not treated
    as an inactive hand; from a wind velocity of 0 the inactive signal
    leaves it at 0 and the NaN signal makes it NaN, and the wind targets
    are NaN and 0. *)
Lemma C9_counterexample :
  Binary64.targetWind
    {| Binary64.hand_vx := Binary64.NaN; Binary64.hand_active := true |} <>
  Binary64.targetWind
    {| Binary64.hand_vx := Binary64.NaN; Binary64.hand_active := false |} /\
  Binary64.smoothedWind Binary64.zero
    {| Binary64.hand_vx := Binary64.NaN; Binary64.hand_active := true |} <>
  Binary64.smoothedWind Binary64.zero
    {| Binary64.hand_vx := Binary64.NaN; Binary64.hand_active := false |}.
Proof. split; vm_compute; discriminate. Qed.

(** ** The initial positions *)

Lemma for_loop_invariant {St : Type} (P : nat -> St -> Prop)
    (body : nat -> St -> St) n : forall i s,
  P i s ->
  (forall k s', (i <= k < i + n)%nat -> P k s' -> P (S k) (body k s')) ->
  P (i + n)%nat (for_loop body n i s).
Proof.
  induction n as [|n IH]; intros i s Hs Hstep; simpl.
  - now rewrite Nat.add_0_r.
  - replace (i + S n)%nat with (S i + n)%nat by lia.
    apply IH.
    + apply Hstep; [lia | assumption].
    + intros k s' Hk. apply Hstep. lia.
Qed.

(** One turn of the loop of [useMemo] writes the same triple to both
    position arrays: a point at angle [u1 * PI * 2] and radius
    [u2 * (15 - 1) + 1], at depth [(u3 - 0.5) * 4], from three draws. *)
Lemma initStep_positions palette i st g :
  exists u1 u2 u3 : R,
    (unit_draws g -> 0 <= u2 < 1 /\ 0 <= u3 < 1) /\
    let p := (cos (u1 * PI * 2) * (u2 * (15 - 1) + 1),
              sin (u1 * PI * 2) * (u2 * (15 - 1) + 1),
              (u3 - 0.5) * 4) in
    initialPositions (fst (initStep palette i (st, g))) =
      write3 (initialPositions st) (i * 3) p /\
    positions (fst (initStep palette i (st, g))) =
      write3 (positions st) (i * 3) p /\
    draws (snd (initStep palette i (st, g))) = draws g.
Proof.
  exists (draws g (cursor g)), (draws g (S (cursor g))),
         (draws g (S (S (cursor g)))).
  split; [intros Hu; split; apply Hu|].
  unfold initStep, randomRange, Math_random. cbn [draws cursor].
  destruct (nth _ palette (0, 0, 0)) as [[r gr] b].
  cbn [fst snd initialPositions positions draws].
  repeat split.
Qed.

Lemma initStep_invariant count palette k s :
  (k < count)%nat ->
  init_invariant count k s -> init_invariant count (S k) (initStep palette k s).
Proof.
  intros Hk (Hlen & Hsame & Hdraws & Hprev). destruct s as [st g].
  cbn [fst snd] in Hlen, Hsame, Hdraws, Hprev.
  destruct (initStep_positions palette k st g)
    as (u1 & u2 & u3 & Hu & Hinit & Hpos & Hd).
  destruct (Hu Hdraws) as [Hu2 Hu3].
  set (p := (cos (u1 * PI * 2) * (u2 * (15 - 1) + 1),
             sin (u1 * PI * 2) * (u2 * (15 - 1) + 1),
             (u3 - 0.5) * 4)) in *.
  unfold init_invariant. rewrite Hinit, Hpos, Hsame.
  split; [rewrite length_write3; exact Hlen|].
  split; [reflexivity|].
  split; [unfold unit_draws; rewrite Hd; exact Hdraws|].
  intros j Hj. unfold in_start_range, xy_radius, particle_x, particle_y,
    particle_z.
  destruct (Nat.eq_dec j k) as [->|Hne].
  - destruct (write3_read (initialPositions st) (k * 3) p ltac:(lia))
      as (Hx & Hy & Hz).
    rewrite Hx, Hy, Hz. unfold p. cbn [fst snd].
    rewrite radius_of_rotation by lra. lra.
  - rewrite !write3_other by lia.
    apply (Hprev j). lia.
Qed.

Lemma initialField_invariant count palette g :
  unit_draws g ->
  init_invariant count count (initialField count palette g).
Proof.
  intros Hg. unfold initialField.
  apply (for_loop_invariant (init_invariant count) (initStep palette)
           count 0).
  - unfold init_invariant. cbn [fst snd initialPositions positions].
    rewrite length_replicate.
    split; [reflexivity|]. split; [reflexivity|]. split; [exact Hg|].
    intros j Hj. lia.
  - intros k s' Hk. apply initStep_invariant. lia.
Qed.

(** C10: when every draw is in [0, 1), each particle of the initial field
    starts at a distance from the axis in [1, 15) and at a depth in
    [-2, 2); so its distance is below 20 and the factor of the wind,
    1.0 - dist / 20.0, is positive. *)
Theorem C10_initial_range count palette g i :
  unit_draws g ->
  (i < count)%nat ->
  let st := fst (initialField count palette g) in
  let dist := xy_radius (initialPositions st) i in
  1 <= dist < 15 /\
  -2 <= particle_z (initialPositions st) i < 2 /\
  dist < 20 /\
  0 < 1.0 - dist / 20.0.
Proof.
  intros Hg Hi st dist.
  destruct (initialField_invariant count palette g Hg)
    as (_ & _ & _ & Hrange).
  destruct (Hrange i Hi) as [Hd Hz]. fold st in Hd, Hz. fold dist in Hd.
  repeat split; lra.
Qed.

Lemma half_rng_unit : unit_draws half_rng.
Proof. intros k. simpl. lra. Defined.

Lemma C10_initial_range_witness :
  let st := fst (initialField 2 white_palette half_rng) in
  let dist := xy_radius (initialPositions st) 1 in
  1 <= dist < 15 /\
  -2 <= particle_z (initialPositions st) 1 < 2 /\
  dist < 20 /\
  0 < 1.0 - dist / 20.0.
Proof.
  apply (C10_initial_range 2 white_palette half_rng 1).
  - exact half_rng_unit.
  - lia.
Defined.

(** * Further properties *)

(** ** The depth of a particle *)

Lemma particleTarget_depth time pts wind x y z :
  snd (particleTarget time pts wind x y z) =
  z + sin (time * 0.5 + sqrt (x * x + y * y) * 0.5) * 0.3.
Proof. rewrite particleTarget_unfold. reflexivity. Qed.

Lemma useFrame_depth count fr st i :
  (i < count)%nat ->
  (count * 3 <= length (positions st))%nat ->
  particle_z (positions (useFrame count fr st)) i =
  particle_z (initialPositions st) i
  + sin (elapsedTime fr * 0.5 + xy_radius (initialPositions st) i * 0.5) * 0.3.
Proof.
  intros Hi Hlen.
  pose proof (useFrame_particle count fr st i Hi Hlen) as H. cbv zeta in H.
  apply (f_equal snd) in H. rewrite particleTarget_depth in H. exact H.
Qed.

(** The depth a frame gives a particle is within 0.3 of its initial depth,
    at every time and whatever the pointers and the hand do; it is the
    same in any frame at the same time on the same initial positions. *)
Theorem depth_breathing_bounded count fr st i fr' st' :
  (i < count)%nat ->
  (count * 3 <= length (positions st))%nat ->
  (count * 3 <= length (positions st'))%nat ->
  elapsedTime fr' = elapsedTime fr ->
  initialPositions st' = initialPositions st ->
  Rabs (particle_z (positions (useFrame count fr st)) i
        - particle_z (initialPositions st) i) <= 0.3 /\
  particle_z (positions (useFrame count fr' st')) i =
  particle_z (positions (useFrame count fr st)) i.
Proof.
  intros Hi Hlen Hlen' Htime Hinit.
  rewrite !useFrame_depth by assumption. rewrite Htime, Hinit.
  split; [|reflexivity].
  match goal with |- context [sin ?a] => pose proof (SIN_bound a) as Hs end.
  apply Rabs_le. lra.
Qed.

Lemma depth_breathing_bounded_witness :
  Rabs (particle_z (positions (useFrame 2 late_frame pair_field)) 1
        - particle_z (initialPositions pair_field) 1) <= 0.3 /\
  particle_z (positions (useFrame 2 (calm late_frame) (still pair_field))) 1 =
  particle_z (positions (useFrame 2 late_frame pair_field)) 1.
Proof.
  apply (depth_breathing_bounded 2 late_frame pair_field 1
           (calm late_frame) (still pair_field)).
  - lia.
  - simpl. lia.
  - simpl. lia.
  - reflexivity.
  - reflexivity.
Defined.

(** ** The orbit of a particle *)

Lemma rotationSpeed_bounds time d :
  0 <= d ->
  0.03 / (d * 0.1 + 1.0)
  <= (0.04 + sin (time * 0.1 + d * 0.3) * 0.5 * 0.02) * (1.0 / (d * 0.1 + 1.0))
  <= 0.05 / (d * 0.1 + 1.0).
Proof.
  intros Hd.
  pose proof (SIN_bound (time * 0.1 + d * 0.3)) as Hs.
  assert (Hq : 0 < / (d * 0.1 + 1.0)) by (apply Rinv_0_lt_compat; lra).
  unfold Rdiv. set (q := / (d * 0.1 + 1.0)) in *.
  split; nra.
Qed.

Lemma currentAngleOf_bounds time x y :
  0 <= time ->
  let d := sqrt (x * x + y * y) in
  atan2 y x + time * (0.03 / (d * 0.1 + 1.0)) <= currentAngleOf time x y
  <= atan2 y x + time * (0.05 / (d * 0.1 + 1.0)).
Proof.
  intros Ht d. unfold currentAngleOf. cbv zeta. fold d.
  pose proof (rotationSpeed_bounds time d (sqrt_pos _)) as [Hlo Hhi].
  split.
  - apply Rplus_le_compat_l. apply Rmult_le_compat_l; assumption.
  - apply Rplus_le_compat_l. apply Rmult_le_compat_l; assumption.
Qed.

(** With no interaction point and no wind a particle is on its circle, at
    an angle that has advanced from its initial angle by the time times a
    speed between 0.03 / (1 + dist / 10) and 0.05 / (1 + dist / 10): every
    particle turns the same way, never faster than 0.05 a second, and the
    division is by a number that is at least 1. *)
Theorem orbit_turns_forward count fr st i :
  interactionPoints fr = [] ->
  windVelocity (useFrame count fr st) = 0 ->
  (i < count)%nat ->
  (count * 3 <= length (positions st))%nat ->
  0 <= elapsedTime fr ->
  let out := positions (useFrame count fr st) in
  let x := particle_x (initialPositions st) i in
  let y := particle_y (initialPositions st) i in
  let d := xy_radius (initialPositions st) i in
  exists theta,
    particle_x out i = cos theta * d /\
    particle_y out i = sin theta * d /\
    1 <= d * 0.1 + 1.0 /\
    atan2 y x + elapsedTime fr * (0.03 / (d * 0.1 + 1.0)) <= theta /\
    theta <= atan2 y x + elapsedTime fr * (0.05 / (d * 0.1 + 1.0)).
Proof.
  intros Hpts Hwind Hi Hlen Ht out x y d.
  pose proof (useFrame_particle count fr st i Hi Hlen) as H. cbv zeta in H.
  rewrite Hpts, Hwind, activePoints_nil, particleTarget_baseline in H.
  apply triple_inv in H as (Hx & Hy & _).
  fold x y in Hx, Hy. fold out in Hx, Hy.
  exists (currentAngleOf (elapsedTime fr) x y).
  assert (Hd : 0 <= d) by apply sqrt_pos.
  split; [rewrite Hx; unfold d, xy_radius; fold x y; lra|].
  split; [rewrite Hy; reflexivity|].
  split; [lra|].
  apply (currentAngleOf_bounds (elapsedTime fr) x y Ht).
Qed.

Lemma late_scenario_wind :
  windVelocity (useFrame 3 late_frame scenario_field) = 0.
Proof.
  rewrite useFrame_windVelocity.
  unfold MathUtils_lerp, targetWind, late_frame, scenario_field, no_hand.
  simpl. lra.
Defined.

Lemma orbit_turns_forward_witness :
  let out := positions (useFrame 3 late_frame scenario_field) in
  let x := particle_x (initialPositions scenario_field) 1 in
  let y := particle_y (initialPositions scenario_field) 1 in
  let d := xy_radius (initialPositions scenario_field) 1 in
  exists theta,
    particle_x out 1 = cos theta * d /\
    particle_y out 1 = sin theta * d /\
    1 <= d * 0.1 + 1.0 /\
    atan2 y x + elapsedTime late_frame * (0.03 / (d * 0.1 + 1.0)) <= theta /\
    theta <= atan2 y x + elapsedTime late_frame * (0.05 / (d * 0.1 + 1.0)).
Proof.
  apply (orbit_turns_forward 3 late_frame scenario_field 1).
  - reflexivity.
  - exact late_scenario_wind.
  - lia.
  - simpl. lia.
  - simpl. lra.
Defined.

(** At time 0, with no interaction point and no wind, every particle is
    written back at its initial x and y, whatever they are (the centre
    included): the polar form the loop goes through, [Math.atan2] and the
    distance, gives the point back. *)
Theorem time_zero_keeps_xy count fr st i :
  elapsedTime fr = 0 ->
  interactionPoints fr = [] ->
  windVelocity (useFrame count fr st) = 0 ->
  (i < count)%nat ->
  (count * 3 <= length (positions st))%nat ->
  particle_x (positions (useFrame count fr st)) i =
    particle_x (initialPositions st) i /\
  particle_y (positions (useFrame count fr st)) i =
    particle_y (initialPositions st) i.
Proof.
  intros Htime Hpts Hwind Hi Hlen.
  pose proof (useFrame_particle count fr st i Hi Hlen) as H. cbv zeta in H.
  rewrite Htime, Hpts, Hwind, activePoints_nil in H.
  rewrite (particleTarget_at_rest _ _ _
             (sqrt (particle_x (initialPositions st) i
                    * particle_x (initialPositions st) i
                    + particle_y (initialPositions st) i
                      * particle_y (initialPositions st) i))) in H.
  - apply triple_inv in H as (Hx & Hy & _). split; assumption.
  - apply sqrt_pos.
  - apply sqrt_sqrt. nra.
Qed.

Lemma time_zero_keeps_xy_witness :
  particle_x (positions (useFrame 1 scenario_frame origin_field)) 0 =
    particle_x (initialPositions origin_field) 0 /\
  particle_y (positions (useFrame 1 scenario_frame origin_field)) 0 =
    particle_y (initialPositions origin_field) 0.
Proof.
  apply (time_zero_keeps_xy 1 scenario_frame origin_field 0).
  - reflexivity.
  - reflexivity.
  - rewrite useFrame_windVelocity.
    unfold MathUtils_lerp, targetWind, scenario_frame, origin_field, no_hand.
    simpl. lra.
  - lia.
  - simpl. lia.
Defined.

(** ** The push of an interaction point *)

Lemma activePoints_speed_nonneg vp pts p :
  In p (activePoints vp pts) -> 0 <= ap_v p.
Proof.
  unfold activePoints. rewrite in_map_iff.
  intros (q & <- & _). simpl. apply sqrt_pos.
Qed.

Lemma applyPoint_scales tx ty p :
  0 <= ap_v p ->
  let dx := tx - ap_x p in
  let dy := ty - ap_y p in
  let m := sqrt (dx * dx + dy * dy) in
  let r := 4 + ap_v p * 10 in
  let s := if Rlt_dec m r then 1 + (r - m) / r * (0.3 + ap_v p * 2) else 1 in
  applyPoint (tx, ty) p = (ap_x p + s * dx, ap_y p + s * dy) /\
  1 <= s <= 1.3 + ap_v p * 2.
Proof.
  intros Hv dx dy m r s. unfold applyPoint. fold dx dy. fold m. fold r.
  assert (Hm : 0 <= m) by apply sqrt_pos.
  assert (Hr : 0 < r) by (unfold r; lra).
  subst s. destruct (Rlt_dec m r) as [Hin|Hout].
  - split.
    + f_equal; unfold dx, dy; field; lra.
    + assert (Hf : 0 < (r - m) / r <= 1).
      { split.
        - apply Rdiv_lt_0_compat; lra.
        - apply (Rmult_le_reg_r r); [lra|].
          unfold Rdiv. rewrite Rmult_assoc, Rinv_l by lra. lra. }
      split; nra.
  - split; [f_equal; unfold dx, dy; ring | lra].
Qed.

(** An interaction point only pushes away.  The target of a particle
    stays on its ray from the point and its distance to the point is
    multiplied by a factor between 1 and 1.3 + 2 * speed, so it never gets
    closer; out of the influence radius 4 + 10 * speed the factor is 1 and
    the target does not move. *)
Theorem point_pushes_away vp pts p tx ty :
  In p (activePoints vp pts) ->
  let out := applyPoint (tx, ty) p in
  let m := Hands.hypot (tx - ap_x p) (ty - ap_y p) in
  exists s,
    1 <= s <= 1.3 + ap_v p * 2 /\
    fst out - ap_x p = s * (tx - ap_x p) /\
    snd out - ap_y p = s * (ty - ap_y p) /\
    Hands.hypot (fst out - ap_x p) (snd out - ap_y p) = s * m /\
    m <= Hands.hypot (fst out - ap_x p) (snd out - ap_y p) /\
    (4 + ap_v p * 10 <= m -> out = (tx, ty)).
Proof.
  intros Hin out m.
  pose proof (activePoints_speed_nonneg vp pts p Hin) as Hv.
  destruct (applyPoint_scales tx ty p Hv) as [Heq Hs]. cbv zeta in Heq, Hs.
  fold (Hands.hypot (tx - ap_x p) (ty - ap_y p)) in Heq, Hs. fold m in Heq, Hs.
  remember (if Rlt_dec m (4 + ap_v p * 10)
            then 1 + (4 + ap_v p * 10 - m) / (4 + ap_v p * 10)
                     * (0.3 + ap_v p * 2)
            else 1) as s eqn:Es.
  assert (Hm : 0 <= m) by apply sqrt_pos.
  assert (Hx : fst out - ap_x p = s * (tx - ap_x p))
    by (unfold out; rewrite Heq; simpl; ring).
  assert (Hy : snd out - ap_y p = s * (ty - ap_y p))
    by (unfold out; rewrite Heq; simpl; ring).
  assert (Hh : Hands.hypot (fst out - ap_x p) (snd out - ap_y p) = s * m).
  { rewrite Hx, Hy. unfold Hands.hypot.
    replace (s * (tx - ap_x p) * (s * (tx - ap_x p))
             + s * (ty - ap_y p) * (s * (ty - ap_y p)))
      with ((s * s) * ((tx - ap_x p) * (tx - ap_x p)
                       + (ty - ap_y p) * (ty - ap_y p))) by ring.
    rewrite sqrt_mult;
      [| apply Rle_0_sqr | apply Rplus_le_le_0_compat; apply Rle_0_sqr].
    rewrite sqrt_square by lra. reflexivity. }
  exists s. repeat split; try assumption; try lra.
  - rewrite Hh. nra.
  - intros Hfar. unfold out. rewrite Heq. subst s.
    destruct (Rlt_dec m (4 + ap_v p * 10)); [lra|].
    f_equal; ring.
Qed.

Lemma point_pushes_away_witness :
  let p := {| ap_x := 0.25 * 16 / 2; ap_y := 0.5 * 9 / 2;
              ap_v := sqrt (0.3 * 0.3 + 0.4 * 0.4) |} in
  let out := applyPoint (3, 4) p in
  let m := Hands.hypot (3 - ap_x p) (4 - ap_y p) in
  exists s,
    1 <= s <= 1.3 + ap_v p * 2 /\
    fst out - ap_x p = s * (3 - ap_x p) /\
    snd out - ap_y p = s * (4 - ap_y p) /\
    Hands.hypot (fst out - ap_x p) (snd out - ap_y p) = s * m /\
    m <= Hands.hypot (fst out - ap_x p) (snd out - ap_y p) /\
    (4 + ap_v p * 10 <= m -> out = (3, 4)).
Proof.
  intros p.
  apply (point_pushes_away {| vp_width := 16; vp_height := 9 |}
           fast_points p 3 4).
  left. reflexivity.
Defined.

Lemma hypot_ge_abs_l a b : Rabs a <= Hands.hypot a b.
Proof.
  unfold Hands.hypot. rewrite <- sqrt_Rsqr_abs.
  apply sqrt_le_1_alt. unfold Rsqr. nra.
Qed.

Lemma fold_applyPoint_out_of_reach pts t :
  Forall (fun p => 4 + ap_v p * 10
                   <= Hands.hypot (fst t - ap_x p) (snd t - ap_y p)) pts ->
  fold_left applyPoint pts t = t.
Proof.
  induction pts as [|p pts IH]; intros Hall; [reflexivity|].
  inversion Hall as [|? ? Hp Hrest]; subst. simpl.
  assert (Hstay : applyPoint t p = t).
  { destruct t as [tx ty]. unfold applyPoint. simpl in Hp.
    unfold Hands.hypot in Hp.
    destruct (Rlt_dec _ _) as [Hlt|_]; [lra | reflexivity]. }
  rewrite Hstay. apply IH. exact Hrest.
Qed.

(** Interaction points that are all out of reach of a particle (each at
    its influence radius 4 + 10 * speed or more from where the rotation
    has brought the particle) leave it where the frame with no point puts
    it, however many they are. *)
Theorem far_points_ignored count fr st i :
  (i < count)%nat ->
  (count * 3 <= length (positions st))%nat ->
  let x := particle_x (initialPositions st) i in
  let y := particle_y (initialPositions st) i in
  let d := xy_radius (initialPositions st) i in
  let theta := currentAngleOf (elapsedTime fr) x y in
  (forall p, In p (activePoints (viewport fr) (interactionPoints fr)) ->
     4 + ap_v p * 10
     <= Hands.hypot (cos theta * d - ap_x p) (sin theta * d - ap_y p)) ->
  let out := positions (useFrame count fr st) in
  let base := positions (useFrame count (without_points fr) st) in
  particle_x out i = particle_x base i /\
  particle_y out i = particle_y base i /\
  particle_z out i = particle_z base i.
Proof.
  intros Hi Hlen x y d theta Hfar out base.
  pose proof (useFrame_particle count fr st i Hi Hlen) as H.
  pose proof (useFrame_particle count (without_points fr) st i Hi Hlen) as H0.
  cbv zeta in H, H0.
  rewrite useFrame_without_points_wind in H0.
  change (elapsedTime (without_points fr)) with (elapsedTime fr) in H0.
  change (interactionPoints (without_points fr))
    with (@nil (Z * InteractionPoint)) in H0.
  rewrite activePoints_nil in H0.
  rewrite particleTarget_unfold in H, H0. cbv zeta in H, H0.
  fold x y in H, H0. fold theta in H, H0.
  change (sqrt (x * x + y * y)) with d in H, H0.
  rewrite fold_applyPoint_out_of_reach in H
    by (apply List.Forall_forall; intros p Hp; simpl; apply Hfar, Hp).
  simpl fold_left in H0.
  fold out in H. fold base in H0. rewrite <- H0 in H.
  apply triple_inv in H as (Hx & Hy & Hz). auto.
Qed.

Lemma origin_radius : xy_radius (initialPositions origin_field) 0 = 0.
Proof.
  unfold xy_radius, particle_x, particle_y, origin_field. simpl.
  aget_list. apply sqrt_lem_1; lra.
Defined.

Lemma far_points_ignored_witness :
  let out := positions (useFrame 1 far_point_frame origin_field) in
  let base :=
    positions (useFrame 1 (without_points far_point_frame) origin_field) in
  particle_x out 0 = particle_x base 0 /\
  particle_y out 0 = particle_y base 0 /\
  particle_z out 0 = particle_z base 0.
Proof.
  apply (far_points_ignored 1 far_point_frame origin_field 0).
  - lia.
  - simpl. lia.
  - intros p [<-|[]]. rewrite origin_radius. simpl.
    eapply Rle_trans; [|apply hypot_ge_abs_l].
    replace (0 * 0 + 0 * 0) with 0 by ring. rewrite sqrt_0.
    rewrite Rabs_left; lra.
Defined.

(** ** The rotation of the mesh and the wind *)

Lemma useFrame_rotation count fr st :
  rotation_z (useFrame count fr st) =
  rotation_z st + (0.001 + Rabs (windVelocity (useFrame count fr st)) * 0.005).
Proof.
  rewrite useFrame_windVelocity. unfold useFrame. simpl.
  match goal with
  | |- context [for_loop ?b ?n ?i ?s] =>
      pose proof (loop_same (elapsedTime fr)
                    (activePoints (viewport fr) (interactionPoints fr)) n i s) as H
  end.
  unfold same_but_positions in H. simpl in H.
  destruct H as (_ & _ & _ & _ & _ & _ & Hw & Hr & _).
  now rewrite Hw, Hr.
Qed.

(** The mesh only turns one way: every frame adds
    0.001 + 0.005 * |windVelocity| to its rotation, so after any frames
    the rotation has grown by at least 0.001 a frame. *)
Theorem rotation_only_advances count frs : forall st,
  rotation_z st + 0.001 * INR (length frs)
  <= rotation_z (run_frames count frs st).
Proof.
  induction frs as [|fr frs IH]; intros st.
  - simpl. lra.
  - change (run_frames count (fr :: frs) st)
      with (run_frames count frs (useFrame count fr st)).
    eapply Rle_trans; [|apply IH].
    rewrite useFrame_rotation.
    pose proof (Rabs_pos (windVelocity (useFrame count fr st))) as Hw.
    change (length (fr :: frs)) with (S (length frs)). rewrite S_INR. lra.
Qed.

(** The smoothing moves the wind velocity a twentieth of the way to its
    target: the new value is between the old one and the target, its gap
    to the target is 0.95 times the old gap, and a bound on both the old
    value and the target bounds the new value. *)
Theorem wind_moves_toward_target count fr st :
  let w := windVelocity st in
  let t := targetWind (handInfluence fr) in
  let w' := windVelocity (useFrame count fr st) in
  Rmin w t <= w' <= Rmax w t /\
  w' - t = 0.95 * (w - t) /\
  (forall B, Rabs w <= B -> Rabs t <= B -> Rabs w' <= B).
Proof.
  intros w t w'. subst w'. rewrite useFrame_windVelocity. fold w t.
  unfold MathUtils_lerp.
  split; [|split].
  - unfold Rmin, Rmax. destruct (Rle_dec w t); lra.
  - lra.
  - intros B Hw Ht.
    assert (Hwb : - B <= w <= B)
      by (unfold Rabs in Hw; destruct (Rcase_abs w); lra).
    assert (Htb : - B <= t <= B)
      by (unfold Rabs in Ht; destruct (Rcase_abs t); lra).
    apply Rabs_le. lra.
Qed.

(** Any number of frames leaves the colour, size, phase and angle arrays
    and the initial positions as they were, and the position array at its
    length. *)
Lemma frames_keep_layout count frs : forall st,
  colors (run_frames count frs st) = colors st /\
  sizes (run_frames count frs st) = sizes st /\
  phases (run_frames count frs st) = phases st /\
  angles (run_frames count frs st) = angles st /\
  initialPositions (run_frames count frs st) = initialPositions st /\
  length (positions (run_frames count frs st)) = length (positions st).
Proof.
  induction frs as [|fr frs IH]; intros st.
  - simpl. tauto.
  - change (run_frames count (fr :: frs) st)
      with (run_frames count frs (useFrame count fr st)).
    destruct (IH (useFrame count fr st)) as (Hc & Hs & Hp & Ha & Hi & Hl).
    destruct (useFrame_same count fr st) as (Hc' & Hs' & Hp' & Ha' & Hi' & Hl').
    repeat split; congruence.
Qed.

(** ** The arrays of [useMemo] *)

(** One turn of the loop, in full. *)
Lemma initStep_unfold palette i st g :
  let u := fun k => draws g (k + cursor g)%nat in
  let p := (cos (u 0%nat * PI * 2) * (u 1%nat * (15 - 1) + 1),
            sin (u 0%nat * PI * 2) * (u 1%nat * (15 - 1) + 1),
            (u 2%nat - 0.5) * 4) in
  let c := nth (floor_index (u 3%nat * INR (length palette))) palette
               (0, 0, 0) in
  initStep palette i (st, g) =
  ({| positions := write3 (positions st) (i * 3) p;
      colors := write3 (colors st) (i * 3) c;
      sizes := aset (sizes st) i (u 4%nat * (0.25 - 0.08) + 0.08);
      phases := aset (phases st) i (u 5%nat * 10.0);
      angles := aset (angles st) i (u 6%nat * PI);
      initialPositions := write3 (initialPositions st) (i * 3) p;
      uTime := uTime st; windVelocity := windVelocity st;
      rotation_z := rotation_z st; needsUpdate := needsUpdate st |},
   {| draws := draws g; cursor := (7 + cursor g)%nat |}).
Proof.
  cbv zeta. unfold initStep, randomRange, Math_random. cbn [draws cursor].
  cbn [Nat.add].
  destruct (nth _ palette (0, 0, 0)) as [[r gr] b]. reflexivity.
Qed.

(** [Math.floor(Math.random() * n)] is an index below [n]. *)
Lemma floor_index_below u n :
  0 <= u < 1 -> (0 < n)%nat -> (floor_index (u * INR n) < n)%nat.
Proof.
  intros Hu Hn. unfold floor_index.
  assert (Hpos : 0 < INR n) by (apply lt_0_INR; exact Hn).
  destruct (base_Int_part (u * INR n)) as [Hle _].
  assert (Hlt : IZR (Int_part (u * INR n)) < IZR (Z.of_nat n)).
  { rewrite <- INR_IZR_INZ. nra. }
  apply lt_IZR in Hlt. lia.
Qed.

Lemma initStep_layout count c0 g0 palette k s :
  (k < count)%nat ->
  init_layout count c0 k g0 s ->
  init_layout count c0 (S k) g0 (initStep palette k s).
Proof.
  intros Hk H. destruct s as [st g]. unfold init_layout in *.
  cbn [fst snd] in H.
  destruct H as (H1 & H2 & H3 & H4 & H5 & H6 & H7 & H8 & H9 & H10 & H11 & H12).
  rewrite initStep_unfold. cbv zeta. cbn [fst snd positions colors sizes
    phases angles initialPositions uTime windVelocity rotation_z draws cursor].
  rewrite !length_write3, !length_aset, H7.
  repeat split; try assumption; try reflexivity; lia.
Qed.

Lemma initStep_attributes count c0 g0 palette k s :
  (k < count)%nat ->
  unit_draws g0 -> palette <> [] ->
  init_layout count c0 k g0 s ->
  init_attributes palette k s ->
  init_attributes palette (S k) (initStep palette k s).
Proof.
  intros Hk Hg Hpal Hlay Hattr. destruct s as [st g].
  unfold init_layout in Hlay. cbn [fst snd] in Hlay.
  destruct Hlay as (_ & Hlc & _ & Hls & Hlp & Hla & _ & _ & _ & _ & Hd & _).
  assert (Hu : forall m, 0 <= draws g m < 1) by (rewrite Hd; exact Hg).
  unfold init_attributes in *. cbn [fst snd] in Hattr.
  rewrite initStep_unfold. cbv zeta.
  cbn [fst snd colors sizes phases angles].
  intros j Hj. unfold particle_color.
  destruct (Nat.eq_dec j k) as [->|Hne].
  - rewrite !aget_aset_eq by lia.
    destruct (write3_read (colors st) (k * 3)
                (nth (floor_index (draws g (3 + cursor g)
                                   * INR (length palette)))
                     palette (0, 0, 0)) ltac:(lia)) as (Hr & Hg' & Hb).
    rewrite Hr, Hg', Hb.
    pose proof (Hu (4 + cursor g)%nat) as Hu4.
    pose proof (Hu (5 + cursor g)%nat) as Hu5.
    pose proof (Hu (6 + cursor g)%nat) as Hu6.
    pose proof PI_RGT_0 as Hpi.
    split; [lra|]. split; [lra|]. split; [nra|].
    rewrite <- !surjective_pairing.
    apply nth_In. apply floor_index_below; [apply Hu|].
    destruct palette; [congruence | simpl; lia].
  - rewrite !aget_aset_ne by lia. rewrite !write3_other by lia.
    apply (Hattr j). lia.
Qed.

Lemma initialField_layout count palette g :
  init_layout count (cursor g) count g (initialField count palette g).
Proof.
  unfold initialField.
  apply (for_loop_invariant (fun k s => init_layout count (cursor g) k g s)
           (initStep palette) count 0).
  - unfold init_layout.
    cbn [fst snd positions colors sizes phases angles initialPositions uTime
         windVelocity rotation_z draws cursor].
    rewrite !length_replicate. repeat split; lia.
  - intros k s' Hk. apply initStep_layout. lia.
Qed.

(** The loop of [useMemo] fills arrays of the right lengths (three numbers
    a particle for positions, initial positions and colours; one for
    sizes, phases and angles), leaves the position array equal to the
    initial positions, takes exactly seven draws a particle, and the
    field starts with no wind and no rotation. *)
Theorem initial_field_layout count palette g :
  let st := fst (initialField count palette g) in
  let g' := snd (initialField count palette g) in
  length (positions st) = (count * 3)%nat /\
  length (initialPositions st) = (count * 3)%nat /\
  length (colors st) = (count * 3)%nat /\
  length (sizes st) = count /\
  length (phases st) = count /\
  length (angles st) = count /\
  positions st = initialPositions st /\
  windVelocity st = 0 /\ rotation_z st = 0 /\
  draws g' = draws g /\
  cursor g' = (cursor g + 7 * count)%nat.
Proof.
  intros st g'.
  destruct (initialField_layout count palette g)
    as (H1 & H2 & H3 & H4 & H5 & H6 & H7 & H8 & H9 & H10 & H11 & H12).
  repeat split; assumption.
Qed.

Lemma initialField_attributes count palette g :
  unit_draws g -> palette <> [] ->
  init_attributes palette count (initialField count palette g).
Proof.
  intros Hg Hpal. unfold initialField.
  match goal with
  | |- init_attributes _ _ (for_loop _ _ _ ?s0) => set (s := s0)
  end.
  assert (H : init_layout count (cursor g) (0 + count) g
                (for_loop (initStep palette) count 0 s) /\
              init_attributes palette (0 + count)
                (for_loop (initStep palette) count 0 s)).
  { apply (for_loop_invariant
             (fun k s => init_layout count (cursor g) k g s
                         /\ init_attributes palette k s)
             (initStep palette) count 0 s).
    - split.
      + unfold init_layout, s.
        cbn [fst snd positions colors sizes phases angles initialPositions
             uTime windVelocity rotation_z draws cursor].
        rewrite !length_replicate. repeat split; lia.
      + intros j Hj. lia.
    - intros k s' Hk [Hl Ha]. split.
      + apply initStep_layout; [lia | exact Hl].
      + apply (initStep_attributes count (cursor g) g);
          [lia | exact Hg | exact Hpal | exact Hl | exact Ha]. }
  exact (proj2 H).
Qed.

(** When every draw is in [0, 1) and the palette is not empty, each
    particle of the initial field has a size in [0.08, 0.25), a phase in
    [0, 10), a sprite angle in [0, PI) and a colour of the palette. *)
Theorem initial_attributes_in_range count palette g i :
  unit_draws g ->
  palette <> [] ->
  (i < count)%nat ->
  let st := fst (initialField count palette g) in
  0.08 <= aget (sizes st) i < 0.25 /\
  0 <= aget (phases st) i < 10 /\
  0 <= aget (angles st) i < PI /\
  In (particle_color (colors st) i) palette.
Proof.
  intros Hg Hpal Hi st.
  apply (initialField_attributes count palette g Hg Hpal i Hi).
Qed.

Lemma saw_rng_unit : unit_draws saw_rng.
Proof. intros k. simpl. destruct (Nat.even k); lra. Defined.

Lemma initial_attributes_in_range_witness :
  let st := fst (initialField 3 two_colours saw_rng) in
  0.08 <= aget (sizes st) 2 < 0.25 /\
  0 <= aget (phases st) 2 < 10 /\
  0 <= aget (angles st) 2 < PI /\
  In (particle_color (colors st) 2) two_colours.
Proof.
  apply (initial_attributes_in_range 3 two_colours saw_rng 2).
  - exact saw_rng_unit.
  - discriminate.
  - lia.
Defined.

(** ** utils/math.ts *)

(** [randomRange(min, max)] takes one draw and, for a draw in [0, 1),
    returns a number between the two bounds: in [min, max) when
    min < max, in (max, min] when the bounds are the other way round. *)
Theorem randomRange_in_range min max g :
  0 <= draws g (cursor g) < 1 ->
  let v := fst (randomRange min max g) in
  let g' := snd (randomRange min max g) in
  Rmin min max <= v <= Rmax min max /\
  (min < max -> min <= v < max) /\
  (max < min -> max < v <= min) /\
  draws g' = draws g /\ cursor g' = S (cursor g).
Proof.
  intros Hu v g'. unfold randomRange, Math_random in v, g'.
  cbn [fst snd] in v, g'. subst v g'. cbn [draws cursor].
  set (u := draws g (cursor g)) in *.
  split; [|split; [|split; [|split]]]; try reflexivity.
  - unfold Rmin, Rmax. destruct (Rle_dec min max); nra.
  - intros Hlt. nra.
  - intros Hlt. nra.
Qed.

Lemma randomRange_in_range_witness :
  let v := fst (randomRange 1 15 half_rng) in
  let g' := snd (randomRange 1 15 half_rng) in
  Rmin 1 15 <= v <= Rmax 1 15 /\
  (1 < 15 -> 1 <= v < 15) /\
  (15 < 1 -> 15 < v <= 1) /\
  draws g' = draws half_rng /\ cursor g' = S (cursor half_rng).
Proof.
  apply (randomRange_in_range 1 15 half_rng). simpl. lra.
Defined.

(** [lerp] goes from [a] at 0 to [b] at 1, stays between them for t in
    [0, 1], read from the other end it is the same with 1 - t, and it is
    the interpolation of three.js that the frame callbacks use. *)
Lemma lerp_between a b t :
  0 <= t <= 1 ->
  Rmin a b <= lerp a b t <= Rmax a b /\
  lerp a b 0 = a /\ lerp a b 1 = b /\
  lerp b a (1 - t) = lerp a b t /\
  MathUtils_lerp a b t = lerp a b t.
Proof.
  intros Ht. unfold lerp, MathUtils_lerp.
  split; [|repeat split; ring].
  unfold Rmin, Rmax. destruct (Rle_dec a b); nra.
Qed.

Lemma lerp_between_witness :
  Rmin 18 35 <= lerp 18 35 0.08 <= Rmax 18 35 /\
  lerp 18 35 0 = 18 /\ lerp 18 35 1 = 35 /\
  lerp 35 18 (1 - 0.08) = lerp 18 35 0.08 /\
  MathUtils_lerp 18 35 0.08 = lerp 18 35 0.08.
Proof. apply (lerp_between 18 35 0.08). lra. Defined.

(** [createSwirl] turns a point about the axis: the point it returns is
    as far from the axis as the one it is given, its depth is within 0.1
    of the given depth, the divisor [dist + 0.1] is positive, and a point
    on the axis stays on it. *)
Theorem createSwirl_keeps_radius x y z time :
  let p := createSwirl x y z time in
  let dist := sqrt (x * x + y * y) in
  sqrt (vec_x p * vec_x p + vec_y p * vec_y p) = dist /\
  Rabs (vec_z p - z) <= 0.1 /\
  0.1 <= dist + 0.1 /\
  (dist = 0 -> vec_x p = 0 /\ vec_y p = 0).
Proof.
  intros p dist. unfold p, createSwirl. cbv zeta. cbn [vec_x vec_y vec_z].
  fold dist.
  assert (Hd : 0 <= dist) by apply sqrt_pos.
  split; [apply radius_of_rotation; exact Hd|].
  split.
  - match goal with |- context [sin ?a] => pose proof (SIN_bound a) as Hs end.
    apply Rabs_le. lra.
  - split; [lra|]. intros H0. rewrite H0. split; ring.
Qed.

(** ** The pointer handlers *)

(** A pointer inside the window is given coordinates in [-1, 1] on both
    axes, the left edge at -1 and the right edge at 1, the top edge at 1
    and the bottom edge at -1; the point the frame makes of it is inside
    the viewport. *)
Theorem pointer_normalised w e vp :
  0 < App.innerWidth w -> 0 < App.innerHeight w ->
  0 <= App.clientX e <= App.innerWidth w ->
  0 <= App.clientY e <= App.innerHeight w ->
  0 <= vp_width vp -> 0 <= vp_height vp ->
  -1 <= App.normX w e <= 1 /\ -1 <= App.normY w e <= 1 /\
  (App.clientX e = 0 -> App.normX w e = -1) /\
  (App.clientX e = App.innerWidth w -> App.normX w e = 1) /\
  (App.clientY e = 0 -> App.normY w e = 1) /\
  (App.clientY e = App.innerHeight w -> App.normY w e = -1) /\
  forall p,
    In p (activePoints vp
            (App.interactionPoints
               (App.handlePointerDown w e App.initialRefs))) ->
    Rabs (ap_x p) <= vp_width vp / 2 /\ Rabs (ap_y p) <= vp_height vp / 2 /\
    ap_v p = 0.
Proof.
  intros Hw Hh Hx Hy Hvw Hvh.
  assert (Hqx : 0 <= App.clientX e / App.innerWidth w <= 1).
  { split.
    - apply Rmult_le_pos; [lra | apply Rlt_le, Rinv_0_lt_compat; lra].
    - apply (Rmult_le_reg_r (App.innerWidth w)); [lra|].
      unfold Rdiv. rewrite Rmult_assoc, Rinv_l by lra. lra. }
  assert (Hqy : 0 <= App.clientY e / App.innerHeight w <= 1).
  { split.
    - apply Rmult_le_pos; [lra | apply Rlt_le, Rinv_0_lt_compat; lra].
    - apply (Rmult_le_reg_r (App.innerHeight w)); [lra|].
      unfold Rdiv. rewrite Rmult_assoc, Rinv_l by lra. lra. }
  assert (Hnx : -1 <= App.normX w e <= 1) by (unfold App.normX; lra).
  assert (Hny : -1 <= App.normY w e <= 1) by (unfold App.normY; lra).
  split; [exact Hnx|]. split; [exact Hny|].
  split; [intros H0; unfold App.normX; rewrite H0; field; lra|].
  split; [intros H0; unfold App.normX; rewrite H0; field; lra|].
  split; [intros H0; unfold App.normY; rewrite H0; field; lra|].
  split; [intros H0; unfold App.normY; rewrite H0; field; lra|].
  intros p [<-|[]]. cbn [ap_x ap_y ap_v pt_x pt_y pt_vx pt_vy snd].
  set (nx := App.normX w e) in *. set (ny := App.normY w e) in *.
  clearbody nx ny.
  assert (0 <= (nx + 1) * vp_width vp) by (apply Rmult_le_pos; lra).
  assert (0 <= (1 - nx) * vp_width vp) by (apply Rmult_le_pos; lra).
  assert (0 <= (ny + 1) * vp_height vp) by (apply Rmult_le_pos; lra).
  assert (0 <= (1 - ny) * vp_height vp) by (apply Rmult_le_pos; lra).
  split; [apply Rabs_le; lra|]. split; [apply Rabs_le; lra|].
  replace (0 * 0 + 0 * 0) with 0 by ring. apply sqrt_0.
Qed.

Lemma pointer_normalised_witness :
  -1 <= App.normX window0 pointer_right <= 1 /\
  -1 <= App.normY window0 pointer_right <= 1 /\
  (App.clientX pointer_right = 0 -> App.normX window0 pointer_right = -1) /\
  (App.clientX pointer_right = App.innerWidth window0 ->
   App.normX window0 pointer_right = 1) /\
  (App.clientY pointer_right = 0 -> App.normY window0 pointer_right = 1) /\
  (App.clientY pointer_right = App.innerHeight window0 ->
   App.normY window0 pointer_right = -1) /\
  forall p,
    In p (activePoints {| vp_width := 16; vp_height := 9 |}
            (App.interactionPoints
               (App.handlePointerDown window0 pointer_right
                  App.initialRefs))) ->
    Rabs (ap_x p) <= vp_width {| vp_width := 16; vp_height := 9 |} / 2 /\
    Rabs (ap_y p) <= vp_height {| vp_width := 16; vp_height := 9 |} / 2 /\
    ap_v p = 0.
Proof.
  apply (pointer_normalised window0 pointer_right
           {| vp_width := 16; vp_height := 9 |}); simpl; lra.
Defined.

Section KeysFacts.
Context {V : Type}.
Implicit Types (m : list (Z * V)) (k : Z) (v : V).

Lemma Map_get_None_keys k m : App.Map_get k m = None <-> ~ In k (keys m).
Proof.
  induction m as [|[k' v'] m IH]; simpl; [tauto|].
  destruct (Z.eqb k' k) eqn:E.
  - apply Z.eqb_eq in E. split; [discriminate | intros H; exfalso; auto].
  - apply Z.eqb_neq in E. rewrite IH. tauto.
Qed.

Lemma keys_set_present k v m :
  In k (keys m) -> keys (App.Map_set k v m) = keys m.
Proof.
  induction m as [|[k' v'] m IH]; simpl; [tauto|].
  intros Hin. destruct (Z.eqb k' k) eqn:E; simpl.
  - apply Z.eqb_eq in E. now subst.
  - apply Z.eqb_neq in E. f_equal. apply IH. tauto.
Qed.

Lemma keys_set_absent k v m :
  ~ In k (keys m) -> keys (App.Map_set k v m) = keys m ++ [k].
Proof.
  induction m as [|[k' v'] m IH]; simpl; [reflexivity|].
  intros Hin. destruct (Z.eqb k' k) eqn:E; simpl.
  - apply Z.eqb_eq in E. tauto.
  - f_equal. apply IH. tauto.
Qed.

Lemma keys_delete k m :
  keys (App.Map_delete k m) =
  List.filter (fun k' => negb (Z.eqb k' k)) (keys m).
Proof.
  induction m as [|[k' v'] m IH]; simpl; [reflexivity|].
  destruct (Z.eqb k' k); simpl; [exact IH | now rewrite IH].
Qed.

Lemma Map_delete_absent k m :
  App.Map_get k m = None -> App.Map_delete k m = m.
Proof.
  induction m as [|[k' v'] m IH]; simpl; [reflexivity|].
  destruct (Z.eqb k' k); [discriminate|]. intros H. now rewrite IH.
Qed.

Lemma Map_delete_set_absent k v m :
  App.Map_get k m = None -> App.Map_delete k (App.Map_set k v m) = m.
Proof.
  induction m as [|[k' v'] m IH]; simpl.
  - now rewrite Z.eqb_refl.
  - destruct (Z.eqb k' k) eqn:E; [discriminate|]. intros H.
    simpl. rewrite E. now rewrite IH.
Qed.
End KeysFacts.

Lemma NoDup_keys_set {V : Type} k (v : V) m :
  NoDup (keys m) -> NoDup (keys (App.Map_set k v m)).
Proof.
  intros Hnd. destruct (in_dec Z.eq_dec k (keys m)) as [Hin|Hout].
  - now rewrite keys_set_present.
  - rewrite keys_set_absent by assumption.
    apply NoDup_app. split; [exact Hnd|]. split.
    + intros x Hx Hx'. apply list_elem_of_In in Hx, Hx'.
      destruct Hx' as [<-|[]]. contradiction.
    + apply NoDup_singleton.
Qed.

Lemma NoDup_keys_delete {V : Type} k (m : list (Z * V)) :
  NoDup (keys m) -> NoDup (keys (App.Map_delete k m)).
Proof.
  intros Hnd. rewrite keys_delete.
  apply NoDup_ListNoDup. apply List.NoDup_filter. now apply NoDup_ListNoDup.
Qed.

Lemma handlePointerDown_consistent w e r :
  refs_consistent r -> refs_consistent (App.handlePointerDown w e r).
Proof.
  intros (Hnd & Hkeys & Hpos). unfold refs_consistent, App.handlePointerDown.
  cbn [App.interactionPoints App.lastPointerPositions].
  split; [now apply NoDup_keys_set|]. split.
  - destruct (in_dec Z.eq_dec (App.pointerId e)
                (keys (App.interactionPoints r))) as [Hin|Hout].
    + rewrite !keys_set_present; [exact Hkeys | now rewrite <- Hkeys | exact Hin].
    + rewrite !keys_set_absent; [now rewrite Hkeys | now rewrite <- Hkeys
                                | exact Hout].
  - intros id p. destruct (Z.eq_dec (App.pointerId e) id) as [->|Hne].
    + rewrite !Map_get_set_eq. intros [= <-]. reflexivity.
    + rewrite !Map_get_set_ne by assumption. apply Hpos.
Qed.

Lemma handlePointerMove_consistent w e r :
  refs_consistent r -> refs_consistent (App.handlePointerMove w e r).
Proof.
  intros Hr. unfold App.handlePointerMove.
  destruct (App.Map_get (App.pointerId e) (App.lastPointerPositions r))
    as [last|] eqn:Hlast; [|exact Hr].
  destruct Hr as (Hnd & Hkeys & Hpos). unfold refs_consistent.
  cbn [App.interactionPoints App.lastPointerPositions].
  assert (Hin : In (App.pointerId e) (keys (App.lastPointerPositions r))).
  { destruct (in_dec Z.eq_dec (App.pointerId e)
                (keys (App.lastPointerPositions r))) as [Hin|Hout];
      [exact Hin|].
    apply Map_get_None_keys in Hout. congruence. }
  split; [now apply NoDup_keys_set|]. split.
  - rewrite !keys_set_present; [exact Hkeys | exact Hin | now rewrite Hkeys].
  - intros id p. destruct (Z.eq_dec (App.pointerId e) id) as [->|Hne].
    + rewrite !Map_get_set_eq. intros [= <-]. reflexivity.
    + rewrite !Map_get_set_ne by assumption. apply Hpos.
Qed.

Lemma handlePointerUp_consistent e r :
  refs_consistent r -> refs_consistent (App.handlePointerUp e r).
Proof.
  intros (Hnd & Hkeys & Hpos). unfold refs_consistent, App.handlePointerUp.
  cbn [App.interactionPoints App.lastPointerPositions].
  split; [now apply NoDup_keys_delete|]. split.
  - now rewrite !keys_delete, Hkeys.
  - intros id p. destruct (Z.eq_dec (App.pointerId e) id) as [->|Hne].
    + rewrite Map_get_delete_eq. discriminate.
    + rewrite !Map_get_delete_ne by assumption. apply Hpos.
Qed.

Lemma dispatch_consistent w ev r :
  refs_consistent r -> refs_consistent (App.dispatch w ev r).
Proof.
  destruct ev; simpl.
  - apply handlePointerDown_consistent.
  - apply handlePointerMove_consistent.
  - apply handlePointerUp_consistent.
Qed.

Lemma initialRefs_consistent : refs_consistent App.initialRefs.
Proof.
  unfold refs_consistent. simpl. split; [apply NoDup_nil_2|].
  split; [reflexivity | discriminate].
Qed.

(** After any pointer events from the start, the map of points and the map
    of last raw positions hold the same pointer ids in the same order,
    each id once, and the raw position kept for an id is the position of
    its point. *)
Theorem pointers_stay_consistent evs :
  let r := pointer_run evs App.initialRefs in
  NoDup (keys (App.interactionPoints r)) /\
  keys (App.interactionPoints r) = keys (App.lastPointerPositions r) /\
  forall id p,
    App.Map_get id (App.interactionPoints r) = Some p ->
    App.Map_get id (App.lastPointerPositions r) =
      Some {| App.pos_x := pt_x p; App.pos_y := pt_y p |}.
Proof.
  cbv zeta. fold (refs_consistent (pointer_run evs App.initialRefs)).
  unfold pointer_run.
  generalize initialRefs_consistent. generalize App.initialRefs.
  induction evs as [|[w ev] evs IH]; intros r Hr; simpl; [exact Hr|].
  apply IH. now apply dispatch_consistent.
Qed.

Lemma dispatch_other w ev r k :
  k <> event_id ev ->
  App.Map_get k (App.interactionPoints (App.dispatch w ev r)) =
    App.Map_get k (App.interactionPoints r) /\
  App.Map_get k (App.lastPointerPositions (App.dispatch w ev r)) =
    App.Map_get k (App.lastPointerPositions r).
Proof.
  intros Hne. destruct ev as [e|e|e]; simpl in Hne; simpl.
  - now rewrite !Map_get_set_ne by congruence.
  - unfold App.handlePointerMove.
    destruct (App.Map_get (App.pointerId e) (App.lastPointerPositions r));
      [|tauto].
    simpl. now rewrite !Map_get_set_ne by congruence.
  - now rewrite !Map_get_delete_ne by congruence.
Qed.

(** A pointer event changes nothing for the other pointers: their points,
    velocities and last raw positions are what they were. *)
Theorem other_pointers_untouched w ev r k :
  k <> event_id ev ->
  App.Map_get k (App.interactionPoints (App.dispatch w ev r)) =
    App.Map_get k (App.interactionPoints r) /\
  App.Map_get k (App.lastPointerPositions (App.dispatch w ev r)) =
    App.Map_get k (App.lastPointerPositions r).
Proof. apply dispatch_other. Qed.

Lemma other_pointers_untouched_witness :
  App.Map_get 1%Z
    (App.interactionPoints
       (App.dispatch window0 (App.pointerdown pointer_hover) refs_pressed)) =
    App.Map_get 1%Z (App.interactionPoints refs_pressed) /\
  App.Map_get 1%Z
    (App.lastPointerPositions
       (App.dispatch window0 (App.pointerdown pointer_hover) refs_pressed)) =
    App.Map_get 1%Z (App.lastPointerPositions refs_pressed).
Proof.
  apply (other_pointers_untouched window0 (App.pointerdown pointer_hover)
           refs_pressed 1%Z).
  simpl. lia.
Defined.

(** A pointer that is moved or released but never pressed gets no
    interaction point: only [pointerdown] brings an id into the maps. *)
Theorem hover_makes_no_point evs k : forall r,
  App.Map_get k (App.interactionPoints r) = None ->
  App.Map_get k (App.lastPointerPositions r) = None ->
  (forall w e, In (w, App.pointerdown e) evs -> App.pointerId e <> k) ->
  App.Map_get k (App.interactionPoints (pointer_run evs r)) = None /\
  App.Map_get k (App.lastPointerPositions (pointer_run evs r)) = None.
Proof.
  induction evs as [|[w ev] evs IH]; intros r Hi Hl Hdown; [now split|].
  change (pointer_run ((w, ev) :: evs) r)
    with (pointer_run evs (App.dispatch w ev r)).
  assert (Hstep :
    App.Map_get k (App.interactionPoints (App.dispatch w ev r)) = None /\
    App.Map_get k (App.lastPointerPositions (App.dispatch w ev r)) = None).
  { destruct (Z.eq_dec k (event_id ev)) as [Heq|Hne].
    - destruct ev as [e|e|e]; simpl in Heq; simpl.
      + exfalso. apply (Hdown w e); [now left | congruence].
      + unfold App.handlePointerMove. rewrite <- Heq, Hl. now split.
      + rewrite <- Heq, !Map_get_delete_eq. now split.
    - destruct (dispatch_other w ev r k Hne) as [H1 H2].
      rewrite H1, H2. now split. }
  destruct Hstep as [Hi' Hl'].
  apply IH; [exact Hi' | exact Hl' |].
  intros w' e' Hin. apply (Hdown w' e'). now right.
Qed.

Lemma hover_makes_no_point_witness :
  App.Map_get 2%Z
    (App.interactionPoints
       (pointer_run [(window0, App.pointermove pointer_hover);
                     (window0, App.pointermove pointer_right);
                     (window0, App.pointerup pointer_hover)]
          refs_pressed)) = None /\
  App.Map_get 2%Z
    (App.lastPointerPositions
       (pointer_run [(window0, App.pointermove pointer_hover);
                     (window0, App.pointermove pointer_right);
                     (window0, App.pointerup pointer_hover)]
          refs_pressed)) = None.
Proof.
  apply (hover_makes_no_point
           [(window0, App.pointermove pointer_hover);
            (window0, App.pointermove pointer_right);
            (window0, App.pointerup pointer_hover)] 2%Z refs_pressed).
  - reflexivity.
  - reflexivity.
  - intros w e [H|[H|[H|[]]]]; discriminate.
Defined.

(** Pressing a pointer that is not in the maps and releasing it gives the
    maps back as they were, order included; releasing twice is releasing
    once. *)
Theorem press_release_round_trip w e r :
  App.Map_get (App.pointerId e) (App.interactionPoints r) = None ->
  App.Map_get (App.pointerId e) (App.lastPointerPositions r) = None ->
  App.handlePointerUp e (App.handlePointerDown w e r) = r /\
  App.handlePointerUp e r = r /\
  forall r', App.handlePointerUp e (App.handlePointerUp e r') =
             App.handlePointerUp e r'.
Proof.
  intros Hi Hl. unfold App.handlePointerUp, App.handlePointerDown.
  cbn [App.interactionPoints App.lastPointerPositions].
  rewrite !Map_delete_set_absent, !Map_delete_absent by assumption.
  destruct r as [ip last]. split; [reflexivity|]. split; [reflexivity|].
  intros [ip' last']. cbn [App.interactionPoints App.lastPointerPositions].
  rewrite !(Map_delete_absent _ (App.Map_delete _ _))
    by apply Map_get_delete_eq.
  reflexivity.
Qed.

Lemma press_release_round_trip_witness :
  App.handlePointerUp pointer_hover
    (App.handlePointerDown window0 pointer_hover refs_pressed) = refs_pressed /\
  App.handlePointerUp pointer_hover refs_pressed = refs_pressed /\
  forall r', App.handlePointerUp pointer_hover
               (App.handlePointerUp pointer_hover r') =
             App.handlePointerUp pointer_hover r'.
Proof.
  apply (press_release_round_trip window0 pointer_hover refs_pressed);
    reflexivity.
Defined.

(** ** The hand tracker *)

Lemma Rabs_bound a b : Rabs a <= b -> - b <= a <= b.
Proof. unfold Rabs. destruct (Rcase_abs a); lra. Qed.

Lemma cam_distance_in_range_step r s :
  10 <= Hands.camDistance s <= 35 ->
  let s' := Hands.state_of (Hands.onResults r s) in
  10 <= Hands.camDistance s' <= 35 /\
  Rabs (Hands.camDistance s' - Hands.camDistance s) <= 0.4.
Proof.
  intros Hc s'. subst s'. unfold Hands.onResults.
  assert (Hsame : 10 <= Hands.camDistance s <= 35 /\
                  Rabs (Hands.camDistance s - Hands.camDistance s) <= 0.4).
  { split; [exact Hc|]. rewrite Rminus_diag, Rabs_R0. lra. }
  destruct r as [[|landmarks rest]|]; cbn [Hands.state_of Hands.camDistance];
    try exact Hsame.
  destruct (landmarks !! 0%nat) as [wrist|];
    cbn [Hands.state_of Hands.camDistance]; [|exact Hsame].
  destruct (landmarks !! 4%nat), (landmarks !! 8%nat), (landmarks !! 12%nat),
    (landmarks !! 16%nat), (landmarks !! 20%nat);
    cbn [Hands.state_of Hands.camDistance]; try exact Hsame.
  destruct (Rlt_dec _ 0.05).
  - unfold Rmin. destruct (Rle_dec _ _); split; try lra;
      apply Rabs_le; lra.
  - destruct (Rlt_dec 0.4 _); [|exact Hsame].
    unfold Rmax. destruct (Rle_dec _ _); split; try lra;
      apply Rabs_le; lra.
Qed.

(** The callback keeps the camera distance in [10, 35] and moves it by at
    most 0.4, whatever the landmarks are, also when it throws. *)
Theorem cam_distance_in_range r s :
  10 <= Hands.camDistance s <= 35 ->
  let s' := Hands.state_of (Hands.onResults r s) in
  10 <= Hands.camDistance s' <= 35 /\
  Rabs (Hands.camDistance s' - Hands.camDistance s) <= 0.4.
Proof. apply cam_distance_in_range_step. Qed.

Lemma cam_distance_in_range_witness :
  let s' := Hands.state_of
              (Hands.onResults (Some [pinched_hand 0.7]) Hands.initialState) in
  10 <= Hands.camDistance s' <= 35 /\
  Rabs (Hands.camDistance s' - Hands.camDistance Hands.initialState) <= 0.4.
Proof.
  apply (cam_distance_in_range (Some [pinched_hand 0.7]) Hands.initialState).
  simpl. lra.
Defined.

(** When a hand is seen with its wrist in the picture, the hand state is
    active with x and y in [-1, 1], a horizontal velocity of ten times the
    move of the wrist since the last hand seen, at most 10 in magnitude,
    and no vertical velocity; the wrist is remembered; and [isWaving] is
    set exactly when that velocity exceeds 0.4 in magnitude. *)
Theorem hand_seen landmarks rest wrist s :
  landmarks !! 0%nat = Some wrist ->
  0 <= Hands.lm_x wrist <= 1 -> 0 <= Hands.lm_y wrist <= 1 ->
  0 <= Hands.prevHandX s <= 1 ->
  let s' := Hands.state_of (Hands.onResults (Some (landmarks :: rest)) s) in
  let h := Hands.handState s' in
  hand_active h = true /\
  -1 <= hand_x h <= 1 /\ -1 <= hand_y h <= 1 /\
  hand_vx h = (Hands.lm_x wrist - Hands.prevHandX s) * 10 /\
  Rabs (hand_vx h) <= 10 /\ hand_vy h = 0 /\
  Hands.prevHandX s' = Hands.lm_x wrist /\
  Hands.isHandTracking s' = true /\
  (Hands.isWaving s' = true <-> 0.4 < Rabs (hand_vx h)).
Proof.
  intros Hw Hx Hy Hp s' h. subst h s'. unfold Hands.onResults. rewrite Hw.
  assert (Hwave : Hands.gtb (Rabs (Hands.lm_x wrist - Hands.prevHandX s)) 0.04
                  = true <->
                  0.4 < Rabs ((Hands.lm_x wrist - Hands.prevHandX s) * 10)).
  { rewrite Rabs_mult, (Rabs_right 10) by lra. unfold Hands.gtb.
    destruct (Rlt_dec _ _); split; intros; try lra; try discriminate;
      reflexivity. }
  assert (Hv : Rabs ((Hands.lm_x wrist - Hands.prevHandX s) * 10) <= 10)
    by (apply Rabs_le; lra).
  destruct (landmarks !! 4%nat), (landmarks !! 8%nat), (landmarks !! 12%nat),
    (landmarks !! 16%nat), (landmarks !! 20%nat);
    cbn [Hands.state_of Hands.handState Hands.prevHandX Hands.isHandTracking
         Hands.isWaving hand_active hand_x hand_y hand_vx hand_vy];
    (repeat split; try reflexivity; try lra; try exact Hv; apply Hwave).
Qed.

Lemma hand_seen_witness :
  let s' := Hands.state_of
              (Hands.onResults (Some [pinched_hand 0.7]) Hands.initialState) in
  let h := Hands.handState s' in
  hand_active h = true /\
  -1 <= hand_x h <= 1 /\ -1 <= hand_y h <= 1 /\
  hand_vx h = (0.7 - Hands.prevHandX Hands.initialState) * 10 /\
  Rabs (hand_vx h) <= 10 /\ hand_vy h = 0 /\
  Hands.prevHandX s' = 0.7 /\
  Hands.isHandTracking s' = true /\
  (Hands.isWaving s' = true <-> 0.4 < Rabs (hand_vx h)).
Proof.
  apply (hand_seen (pinched_hand 0.7) []
           {| Hands.lm_x := 0.7; Hands.lm_y := 0.5 |} Hands.initialState).
  - reflexivity.
  - simpl. lra.
  - simpl. lra.
  - simpl. lra.
Defined.

(** A hand of 21 landmarks makes the callback return; a hand with fewer
    makes it throw, after the hand state has been written and with the
    camera distance untouched. *)
Theorem results_need_21_landmarks landmarks rest s :
  (21 <= length landmarks)%nat ->
  (exists s', Hands.onResults (Some (landmarks :: rest)) s = Hands.Returned s')
  /\
  forall short,
    (0 < length short < 21)%nat ->
    exists s',
      Hands.onResults (Some (short :: rest)) s = Hands.Threw s' /\
      hand_active (Hands.handState s') = true /\
      Hands.camDistance s' = Hands.camDistance s.
Proof.
  intros Hlen. split.
  - unfold Hands.onResults.
    destruct (lookup_lt_is_Some_2 landmarks 0) as [l0 H0]; [lia|].
    destruct (lookup_lt_is_Some_2 landmarks 4) as [l4 H4]; [lia|].
    destruct (lookup_lt_is_Some_2 landmarks 8) as [l8 H8]; [lia|].
    destruct (lookup_lt_is_Some_2 landmarks 12) as [l12 H12]; [lia|].
    destruct (lookup_lt_is_Some_2 landmarks 16) as [l16 H16]; [lia|].
    destruct (lookup_lt_is_Some_2 landmarks 20) as [l20 H20]; [lia|].
    rewrite H0, H4, H8, H12, H16, H20. eexists. reflexivity.
  - intros short [Hpos Hshort]. unfold Hands.onResults.
    destruct (lookup_lt_is_Some_2 short 0) as [l0 H0]; [lia|].
    rewrite H0.
    assert (H20 : short !! 20%nat = None) by (apply lookup_ge_None; lia).
    rewrite H20.
    destruct (short !! 4%nat), (short !! 8%nat), (short !! 12%nat),
      (short !! 16%nat); eexists; (split; [reflexivity|]); split; reflexivity.
Qed.

Lemma results_need_21_landmarks_witness :
  (exists s', Hands.onResults (Some [pinched_hand 0.7]) Hands.initialState
              = Hands.Returned s')
  /\
  forall short,
    (0 < length short < 21)%nat ->
    exists s',
      Hands.onResults (Some [short]) Hands.initialState = Hands.Threw s' /\
      hand_active (Hands.handState s') = true /\
      Hands.camDistance s' = Hands.camDistance Hands.initialState.
Proof.
  apply (results_need_21_landmarks (pinched_hand 0.7) [] Hands.initialState).
  simpl. lia.
Defined.

(** The velocity of a hand that comes back is measured from the wrist of
    the last hand seen, however many results with no hand came between:
    losing the hand does not reset the remembered wrist. *)
Theorem hand_velocity_spans_gap landmarks rest wrist gap s :
  landmarks !! 0%nat = Some wrist ->
  Forall (fun r => r = None \/ r = Some []) gap ->
  let lost := fold_left (fun s r => Hands.state_of (Hands.onResults r s))
                        gap s in
  let s' := Hands.state_of (Hands.onResults (Some (landmarks :: rest)) lost) in
  Hands.prevHandX lost = Hands.prevHandX s /\
  Hands.camDistance lost = Hands.camDistance s /\
  (gap <> [] -> hand_active (Hands.handState lost) = false) /\
  hand_vx (Hands.handState s') = (Hands.lm_x wrist - Hands.prevHandX s) * 10.
Proof.
  intros Hw Hgap lost s'.
  assert (Hlost : Hands.prevHandX lost = Hands.prevHandX s /\
                  Hands.camDistance lost = Hands.camDistance s /\
                  (gap <> [] -> hand_active (Hands.handState lost) = false)).
  { subst lost. clear s' Hw. revert s.
    induction gap as [|r gap IH]; intros s; [simpl; tauto|].
    inversion Hgap as [|? ? Hr Hrest]; subst.
    cbn [fold_left].
    destruct (IH Hrest (Hands.state_of (Hands.onResults r s)))
      as (Hp & Hc & Ha).
    assert (Hstep :
      Hands.prevHandX (Hands.state_of (Hands.onResults r s))
        = Hands.prevHandX s /\
      Hands.camDistance (Hands.state_of (Hands.onResults r s))
        = Hands.camDistance s /\
      hand_active (Hands.handState (Hands.state_of (Hands.onResults r s)))
        = false)
      by (destruct Hr as [-> | ->]; simpl; tauto).
    destruct Hstep as (Hp1 & Hc1 & Ha1).
    split; [congruence|]. split; [congruence|].
    intros _. destruct gap as [|r' gap']; [exact Ha1|].
    apply Ha. discriminate. }
  destruct Hlost as (Hp & Hc & Ha).
  split; [exact Hp|]. split; [exact Hc|]. split; [exact Ha|].
  subst s'. unfold Hands.onResults. rewrite Hw, Hp.
  destruct (landmarks !! 4%nat), (landmarks !! 8%nat), (landmarks !! 12%nat),
    (landmarks !! 16%nat), (landmarks !! 20%nat); reflexivity.
Qed.

Lemma hand_velocity_spans_gap_witness :
  let lost := fold_left (fun s r => Hands.state_of (Hands.onResults r s))
                        [None; Some []] Hands.initialState in
  let s' := Hands.state_of (Hands.onResults (Some [pinched_hand 0.7]) lost) in
  Hands.prevHandX lost = Hands.prevHandX Hands.initialState /\
  Hands.camDistance lost = Hands.camDistance Hands.initialState /\
  ([None; Some (@nil (list Hands.Landmark))] <> [] ->
   hand_active (Hands.handState lost) = false) /\
  hand_vx (Hands.handState s') =
    (0.7 - Hands.prevHandX Hands.initialState) * 10.
Proof.
  apply (hand_velocity_spans_gap (pinched_hand 0.7) []
           {| Hands.lm_x := 0.7; Hands.lm_y := 0.5 |}
           [None; Some []] Hands.initialState).
  - reflexivity.
  - apply List.Forall_cons; [left; reflexivity|].
    apply List.Forall_cons; [right; reflexivity|].
    apply List.Forall_nil.
Defined.

(** ** The whole component tree *)

Lemma run_invariant count (Q : System.Event -> Prop) (P : System.State -> Prop)
    evs : forall s,
  P s ->
  (forall s' ev, Q ev -> P s' -> P (System.step count s' ev)) ->
  Forall Q evs ->
  P (System.run count evs s).
Proof.
  induction evs as [|ev evs IH]; intros s Hs Hstep Hall; [exact Hs|].
  inversion Hall as [|? ? Hq Hrest]; subst.
  change (System.run count (ev :: evs) s)
    with (System.run count evs (System.step count s ev)).
  apply IH; [apply Hstep; assumption | exact Hstep | exact Hrest].
Qed.

Lemma Forall_True_events (evs : list System.Event) :
  Forall (fun _ => True) evs.
Proof. induction evs; constructor; auto. Qed.

Lemma step_keeps_store count st0 s ev :
  keeps_store st0 s -> keeps_store st0 (System.step count s ev).
Proof.
  intros H. destruct ev as [w e|r|time vp]; [exact H | exact H |].
  unfold keeps_store in *. cbn [System.step System.field].
  destruct (useFrame_same count (System.frame_of time vp s) (System.field s))
    as (Hc & Hs & Hp & Ha & Hi & Hl).
  destruct H as (Hc' & Hs' & Hp' & Ha' & Hi' & Hl').
  repeat split; congruence.
Qed.

Lemma step_cam_range count s ev :
  10 <= Hands.camDistance (System.hands s) <= 35 ->
  10 <= Hands.camDistance (System.hands (System.step count s ev)) <= 35.
Proof.
  intros H. destruct ev as [w e|r|time vp]; [exact H | | exact H].
  cbn [System.step System.hands].
  apply (cam_distance_in_range_step r (System.hands s) H).
Qed.

(** In any run of the component tree from its start (pointer events, hand
    results and frames in any order) the colour, size, phase and angle
    arrays and the initial positions are the ones [useMemo] made, the
    position array keeps its length of three numbers a particle, the
    camera distance stays in [10, 35] and the two pointer maps hold the
    same ids. *)
Theorem run_keeps_store count palette g evs :
  let st0 := fst (initialField count palette g) in
  let s := System.run count evs (System.initialState count palette g) in
  colors (System.field s) = colors st0 /\
  sizes (System.field s) = sizes st0 /\
  phases (System.field s) = phases st0 /\
  angles (System.field s) = angles st0 /\
  initialPositions (System.field s) = initialPositions st0 /\
  length (positions (System.field s)) = (count * 3)%nat /\
  10 <= Hands.camDistance (System.hands s) <= 35 /\
  refs_consistent (System.refs s).
Proof.
  intros st0 s. subst s.
  assert (H : keeps_store st0
                (System.run count evs (System.initialState count palette g)) /\
              10 <= Hands.camDistance
                      (System.hands
                         (System.run count evs
                            (System.initialState count palette g))) <= 35 /\
              refs_consistent
                (System.refs
                   (System.run count evs
                      (System.initialState count palette g)))).
  { apply (run_invariant count (fun _ => True)
             (fun s => keeps_store st0 s /\
                       10 <= Hands.camDistance (System.hands s) <= 35 /\
                       refs_consistent (System.refs s))).
    - split; [unfold keeps_store; simpl; tauto|].
      split; [simpl; lra | exact initialRefs_consistent].
    - intros s' ev _ (Hk & Hc & Hr).
      split; [now apply step_keeps_store|].
      split; [now apply step_cam_range|].
      destruct ev as [w e|r|time vp]; try exact Hr.
      cbn [System.step System.refs]. now apply dispatch_consistent.
    - apply Forall_True_events. }
  destruct H as ((Hc & Hs & Hp & Ha & Hi & Hl) & Hcam & Hrefs).
  destruct (initialField_layout count palette g) as (Hlen & _).
  fold st0 in Hlen.
  split; [exact Hc|]. split; [exact Hs|]. split; [exact Hp|].
  split; [exact Ha|]. split; [exact Hi|]. split; [congruence|].
  split; [exact Hcam | exact Hrefs].
Qed.

Lemma step_slab count st0 s ev :
  keeps_store st0 s ->
  length (positions st0) = (count * 3)%nat ->
  (forall i, (i < count)%nat -> -2 <= particle_z (initialPositions st0) i < 2) ->
  (forall i, (i < count)%nat ->
     Rabs (particle_z (positions (System.field s)) i) <= 2.3) ->
  forall i, (i < count)%nat ->
    Rabs (particle_z (positions (System.field (System.step count s ev))) i)
    <= 2.3.
Proof.
  intros Hk Hlen Hz0 Hz i Hi.
  destruct ev as [w e|r|time vp]; [now apply Hz | now apply Hz |].
  cbn [System.step System.field].
  destruct Hk as (_ & _ & _ & _ & Hinit & Hl).
  rewrite useFrame_depth by (try assumption; lia). rewrite Hinit.
  match goal with |- context [sin ?a] => pose proof (SIN_bound a) as Hs end.
  pose proof (Hz0 i Hi). apply Rabs_le. lra.
Qed.

(** In any run from the start, with draws in [0, 1), every particle stays
    in the slab of depths within 2.3 of the plane of the screen, and the
    factor of the wind, 1.0 - dist / 20.0, stays positive for it. *)
Theorem particles_stay_in_slab count palette g evs i :
  unit_draws g ->
  (i < count)%nat ->
  let s := System.run count evs (System.initialState count palette g) in
  Rabs (particle_z (positions (System.field s)) i) <= 2.3 /\
  0 < 1.0 - xy_radius (initialPositions (System.field s)) i / 20.0.
Proof.
  intros Hg Hi s. subst s.
  set (st0 := fst (initialField count palette g)).
  destruct (initialField_invariant count palette g Hg)
    as (Hlen0 & Hsame0 & _ & Hrange).
  fold st0 in Hlen0, Hsame0, Hrange.
  assert (Hlenp : length (positions st0) = (count * 3)%nat)
    by (rewrite Hsame0; exact Hlen0).
  assert (Hz0 : forall j, (j < count)%nat ->
                  -2 <= particle_z (initialPositions st0) j < 2)
    by (intros j Hj; apply (Hrange j Hj)).
  assert (H : keeps_store st0
                (System.run count evs (System.initialState count palette g)) /\
              forall j, (j < count)%nat ->
                Rabs (particle_z
                        (positions
                           (System.field
                              (System.run count evs
                                 (System.initialState count palette g)))) j)
                <= 2.3).
  { apply (run_invariant count (fun _ => True)
             (fun s => keeps_store st0 s /\
                       forall j, (j < count)%nat ->
                         Rabs (particle_z (positions (System.field s)) j)
                         <= 2.3)).
    - split; [unfold keeps_store; simpl; tauto|].
      intros j Hj. cbn [System.initialState System.field]. fold st0.
      rewrite Hsame0. pose proof (Hz0 j Hj). apply Rabs_le. lra.
    - intros s' ev _ [Hk Hz]. split; [now apply step_keeps_store|].
      now apply (step_slab count st0).
    - apply Forall_True_events. }
  destruct H as [(_ & _ & _ & _ & Hinit & _) Hz].
  split; [now apply Hz|].
  rewrite Hinit. destruct (Hrange i Hi) as [Hd _]. lra.
Qed.

Lemma particles_stay_in_slab_witness :
  let s := System.run 2 demo_run (System.initialState 2 two_colours saw_rng) in
  Rabs (particle_z (positions (System.field s)) 1) <= 2.3 /\
  0 < 1.0 - xy_radius (initialPositions (System.field s)) 1 / 20.0.
Proof.
  apply (particles_stay_in_slab 2 two_colours saw_rng demo_run 1).
  - exact saw_rng_unit.
  - lia.
Defined.

Lemma onResults_wind_range r s :
  wrist_in_picture r ->
  0 <= Hands.prevHandX s <= 1 ->
  Rabs (hand_vx (Hands.handState s)) <= 10 ->
  let s' := Hands.state_of (Hands.onResults r s) in
  0 <= Hands.prevHandX s' <= 1 /\
  Rabs (hand_vx (Hands.handState s')) <= 10.
Proof.
  intros Hpic Hp Hv s'. subst s'. unfold Hands.onResults.
  destruct r as [[|landmarks rest]|]; cbn [Hands.state_of]; try (split; assumption).
  destruct (landmarks !! 0%nat) as [wrist|] eqn:Hw;
    cbn [Hands.state_of]; [|split; assumption].
  pose proof (Hpic landmarks rest wrist eq_refl Hw) as Hx.
  assert (Hv' : Rabs ((Hands.lm_x wrist - Hands.prevHandX s) * 10) <= 10)
    by (apply Rabs_le; lra).
  destruct (landmarks !! 4%nat), (landmarks !! 8%nat), (landmarks !! 12%nat),
    (landmarks !! 16%nat), (landmarks !! 20%nat);
    cbn [Hands.state_of Hands.handState Hands.prevHandX hand_vx];
    split; assumption.
Qed.

Lemma step_wind_range count s ev :
  event_in_picture ev -> wind_in_range s ->
  wind_in_range (System.step count s ev).
Proof.
  intros Hev (Hp & Hv & Hw). destruct ev as [w e|r|time vp].
  - split; [exact Hp|]. split; [exact Hv | exact Hw].
  - unfold wind_in_range. cbn [System.step System.hands System.field].
    destruct (onResults_wind_range r (System.hands s) Hev Hp Hv) as [Hp' Hv'].
    split; [exact Hp'|]. split; [exact Hv' | exact Hw].
  - unfold wind_in_range. cbn [System.step System.hands System.field].
    split; [exact Hp|]. split; [exact Hv|].
    rewrite useFrame_windVelocity. cbn [System.frame_of handInfluence].
    apply Rabs_bound in Hv. apply Rabs_bound in Hw.
    unfold MathUtils_lerp, targetWind.
    destruct (hand_active _); apply Rabs_le; lra.
Qed.

(** In any run from the start in which the wrist of every hand seen is in
    the picture (x in [0, 1]), the hand velocity stays within 10 and the
    wind velocity within 150 in magnitude. *)
Theorem wind_stays_bounded count palette g evs :
  Forall event_in_picture evs ->
  let s := System.run count evs (System.initialState count palette g) in
  Rabs (hand_vx (Hands.handState (System.hands s))) <= 10 /\
  Rabs (windVelocity (System.field s)) <= 150.
Proof.
  intros Hev s. subst s.
  assert (H : wind_in_range
                (System.run count evs (System.initialState count palette g))).
  { apply (run_invariant count event_in_picture wind_in_range).
    - unfold wind_in_range. cbn [System.initialState System.hands System.field].
      destruct (initialField_layout count palette g)
        as (_ & _ & _ & _ & _ & _ & _ & _ & Hw0 & _).
      rewrite Hw0. cbn. rewrite Rabs_R0. lra.
    - intros s' ev. apply step_wind_range.
    - exact Hev. }
  destruct H as (_ & Hv & Hw). split; assumption.
Qed.

Lemma demo_run_in_picture : Forall event_in_picture demo_run.
Proof.
  unfold demo_run.
  repeat (apply List.Forall_cons; [|]); try apply List.Forall_nil;
    try exact I.
  - intros landmarks rest wrist [= <- <-] [= <-]. simpl. lra.
  - intros landmarks rest wrist H. discriminate H.
Defined.

Lemma wind_stays_bounded_witness :
  let s := System.run 2 demo_run (System.initialState 2 two_colours saw_rng) in
  Rabs (hand_vx (Hands.handState (System.hands s))) <= 10 /\
  Rabs (windVelocity (System.field s)) <= 150.
Proof.
  apply (wind_stays_bounded 2 two_colours saw_rng demo_run).
  exact demo_run_in_picture.
Defined.

(** When the tracker reports no hand, the next frame aims the wind at 0:
    the wind velocity after it is 0.95 times what it was, whatever the
    velocity of the hand that was lost. *)
Theorem lost_hand_lets_wind_decay count r time vp s :
  r = None \/ r = Some [] ->
  let s' := System.step count (System.step count s (System.HandResults r))
                        (System.Tick time vp) in
  hand_active (Hands.handState (System.hands s')) = false /\
  hand_vx (Hands.handState (System.hands s')) =
    hand_vx (Hands.handState (System.hands s)) /\
  windVelocity (System.field s') = windVelocity (System.field s) * 0.95.
Proof.
  intros Hr s'. subst s'.
  cbn [System.step System.hands System.field].
  rewrite useFrame_inactive_wind
    by (destruct Hr as [-> | ->]; reflexivity).
  destruct Hr as [-> | ->]; simpl; auto.
Qed.

Lemma lost_hand_lets_wind_decay_witness :
  let s := System.run 2 demo_run (System.initialState 2 two_colours saw_rng) in
  let s' := System.step 2 (System.step 2 s (System.HandResults None))
                        (System.Tick 1 {| vp_width := 16; vp_height := 9 |}) in
  hand_active (Hands.handState (System.hands s')) = false /\
  hand_vx (Hands.handState (System.hands s')) =
    hand_vx (Hands.handState (System.hands s)) /\
  windVelocity (System.field s') = windVelocity (System.field s) * 0.95.
Proof.
  apply (lost_hand_lets_wind_decay 2 None 1
           {| vp_width := 16; vp_height := 9 |}).
  left. reflexivity.
Defined.

(** ** The camera *)

Lemma camera_xz_radius a l :
  sqrt ((sin a * l) * (sin a * l) + (cos a * l) * (cos a * l)) = Rabs l.
Proof.
  replace ((sin a * l) * (sin a * l) + (cos a * l) * (cos a * l))
    with (Rsqr l).
  - apply sqrt_Rsqr_abs.
  - pose proof (sin2_cos2 a) as H. unfold Rsqr in *.
    transitivity ((sin a * sin a + cos a * cos a) * (l * l)); [|ring].
    rewrite H. ring.
Qed.

(** A frame of the camera handler keeps the height of the camera and puts
    it, in the horizontal plane, at the distance
    lerp(|position|, targetDistance, 0.08) from the axis.  For a target
    that is not negative this distance is between the old distance to the
    centre and the target.  When the camera is at height 0 its new
    distance to the centre is that value, 8 percent closer to the target;
    at another height y the new distance is
    sqrt(value^2 + y^2), which is more. *)
Theorem camera_distance_step targetDistance handX position :
  let position' := GestureCameraHandler.useFrame targetDistance handX position in
  let len := GestureCameraHandler.length position in
  let newLen := MathUtils_lerp len targetDistance 0.08 in
  vec_y position' = vec_y position /\
  sqrt (vec_x position' * vec_x position' + vec_z position' * vec_z position')
    = Rabs newLen /\
  GestureCameraHandler.length position' =
    sqrt (newLen * newLen + vec_y position * vec_y position) /\
  newLen - targetDistance = 0.92 * (len - targetDistance) /\
  (0 <= targetDistance ->
   Rmin len targetDistance <= newLen <= Rmax len targetDistance /\
   (vec_y position = 0 -> GestureCameraHandler.length position' = newLen)).
Proof.
  intros position' len newLen.
  assert (Hlen : 0 <= len) by apply sqrt_pos.
  split; [reflexivity|].
  split; [apply camera_xz_radius|].
  split.
  - unfold GestureCameraHandler.length at 1. subst position'.
    unfold GestureCameraHandler.useFrame. cbv zeta. cbn [vec_x vec_y vec_z].
    fold len. fold newLen. f_equal.
    match goal with
    | |- sin ?a * _ * _ + _ + _ = _ =>
        pose proof (sin2_cos2 a) as H; unfold Rsqr in H;
        transitivity ((sin a * sin a + cos a * cos a) * (newLen * newLen)
                      + vec_y position * vec_y position); [ring|];
        rewrite H; ring
    end.
  - split; [unfold newLen, MathUtils_lerp; lra|].
    intros Ht.
    assert (Hn : 0 <= newLen) by (unfold newLen, MathUtils_lerp; lra).
    split.
    + unfold newLen, MathUtils_lerp, Rmin, Rmax.
      destruct (Rle_dec len targetDistance); lra.
    + intros Hy. unfold GestureCameraHandler.length. subst position'.
      unfold GestureCameraHandler.useFrame. cbv zeta. cbn [vec_x vec_y vec_z].
      fold len. fold newLen. rewrite Hy.
      match goal with
      | |- sqrt (sin ?a * _ * _ + _ + _) = _ =>
          replace (sin a * newLen * (sin a * newLen) + 0 * 0
                   + cos a * newLen * (cos a * newLen))
            with ((sin a * newLen) * (sin a * newLen)
                  + (cos a * newLen) * (cos a * newLen)) by ring
      end.
      rewrite camera_xz_radius. apply Rabs_right. lra.
Qed.

(** ** The poem *)

(** Whatever the call of the model comes to, a response with a text, one
    with an empty text or none, or an exception, the panel shows a text
    that is not empty and stops loading: the text of the model, the line
    for a silent sky, or the fallback poem when the call fails. *)
Theorem interpretation_never_empty api p :
  let p' := Gemini.handleInterpret api p in
  Gemini.loading p' = false /\
  (exists t, Gemini.interpretation p' = Some t /\ t <> String.EmptyString) /\
  (api = Gemini.Failed ->
   Gemini.interpretation p' = Some Gemini.fallback) /\
  (api = Gemini.Responded None \/
   api = Gemini.Responded (Some String.EmptyString) ->
   Gemini.interpretation p' = Some Gemini.silent) /\
  (forall t, t <> String.EmptyString -> api = Gemini.Responded (Some t) ->
   Gemini.interpretation p' = Some t).
Proof.
  intros p'. subst p'. unfold Gemini.handleInterpret.
  cbn [Gemini.loading Gemini.interpretation].
  split; [reflexivity|]. split.
  - destruct api as [[[|c t]|]|]; cbn [Gemini.interpretTheStars];
      eexists; (split; [reflexivity|]); discriminate.
  - split; [intros ->; reflexivity|]. split.
    + intros [-> | ->]; reflexivity.
    + intros t Ht ->. cbn [Gemini.interpretTheStars].
      destruct t; [congruence | reflexivity].
Qed.

(** [Math.atan2] reads the angle of a point back, for an angle in
    (-PI, PI] and a positive distance. *)
Lemma atan2_of_polar a l :
  0 < l -> - PI < a <= PI -> atan2 (sin a * l) (cos a * l) = a.
Proof.
  intros Hl [Hlo Hhi]. pose proof PI_RGT_0 as Hpi.
  assert (Hshift_s : forall b, sin (b + PI) = - sin b) by apply neg_sin.
  assert (Hshift_c : forall b, cos (b + PI) = - cos b) by apply neg_cos.
  unfold atan2.
  destruct (Rlt_dec (- (PI / 2)) a) as [H1|H1];
    [destruct (Rlt_dec a (PI / 2)) as [H2|H2]|].
  - (* -PI/2 < a < PI/2 *)
    assert (Hc : 0 < cos a) by (apply cos_gt_0; lra).
    destruct (Rlt_dec 0 (cos a * l)) as [_|Hn]; [|exfalso; apply Hn; nra].
    replace (sin a * l / (cos a * l)) with (tan a)
      by (unfold tan; field; lra).
    apply atan_tan. lra.
  - destruct (Req_dec a (PI / 2)) as [->|Hne].
    + (* a = PI/2 *)
      rewrite cos_PI2, sin_PI2, Rmult_0_l, Rmult_1_l.
      destruct (Rlt_dec 0 0); [lra|].
      destruct (Rlt_dec 0 l); [reflexivity | lra].
    + (* PI/2 < a <= PI *)
      assert (Hc : cos a < 0) by (apply cos_lt_0; lra).
      assert (Hs : 0 <= sin a) by (apply sin_ge_0; lra).
      destruct (Rlt_dec 0 (cos a * l)) as [Hp|_]; [exfalso; nra|].
      destruct (Rlt_dec (cos a * l) 0) as [_|Hn]; [|exfalso; apply Hn; nra].
      destruct (Rle_dec 0 (sin a * l)) as [_|Hn]; [|exfalso; apply Hn; nra].
      assert (Hs' : sin a = - sin (a - PI))
        by (rewrite <- Hshift_s; f_equal; ring).
      assert (Hc' : cos a = - cos (a - PI))
        by (rewrite <- Hshift_c; f_equal; ring).
      replace (sin a * l / (cos a * l)) with (tan (a - PI)).
      * rewrite atan_tan by lra. ring.
      * unfold tan. rewrite Hs', Hc'. field. split; lra.
  - destruct (Req_dec a (- (PI / 2))) as [->|Hne].
    + (* a = -PI/2 *)
      rewrite cos_neg, sin_neg, cos_PI2, sin_PI2, Rmult_0_l.
      destruct (Rlt_dec 0 0); [lra|].
      destruct (Rlt_dec 0 (- (1) * l)); [lra|].
      destruct (Rlt_dec (- (1) * l) 0); [reflexivity | lra].
    + (* -PI < a < -PI/2 *)
      assert (Hc : cos a < 0).
      { rewrite <- cos_neg. apply cos_lt_0; lra. }
      assert (Hs : sin a < 0) by (apply sin_lt_0_var; lra).
      destruct (Rlt_dec 0 (cos a * l)) as [Hp|_]; [exfalso; nra|].
      destruct (Rlt_dec (cos a * l) 0) as [_|Hn]; [|exfalso; apply Hn; nra].
      destruct (Rle_dec 0 (sin a * l)) as [Hp|_]; [exfalso; nra|].
      replace (sin a * l / (cos a * l)) with (tan (a + PI)).
      * rewrite atan_tan by lra. ring.
      * unfold tan. rewrite Hshift_s, Hshift_c. field. split; lra.
Qed.

Lemma atan_sign t :
  (t <= 0 -> atan t <= 0) /\ (0 < t -> 0 < atan t).
Proof.
  split; intros Ht.
  - destruct (Req_dec t 0) as [->|Hne]; [rewrite atan_0; lra|].
    rewrite <- atan_0. apply Rlt_le, atan_increasing. lra.
  - rewrite <- atan_0. apply atan_increasing. exact Ht.
Qed.

(** [Math.atan2] returns an angle in (-PI, PI]. *)
Lemma atan2_range y x : - PI < atan2 y x <= PI.
Proof.
  pose proof PI_RGT_0 as Hpi. unfold atan2.
  destruct (Rlt_dec 0 x) as [Hx|Hx].
  - pose proof (atan_bound (y / x)). lra.
  - destruct (Rlt_dec x 0) as [Hx'|Hx'].
    + pose proof (atan_bound (y / x)) as Hb.
      assert (Hi : 0 < / - x) by (apply Rinv_0_lt_compat; lra).
      destruct (Rle_dec 0 y) as [Hy|Hy].
      * assert (Hq : y / x <= 0).
        { replace (y / x) with (- (y * / - x)) by (field; lra).
          assert (0 <= y * / - x) by (apply Rmult_le_pos; lra). lra. }
        pose proof (proj1 (atan_sign (y / x)) Hq). lra.
      * assert (Hq : 0 < y / x).
        { replace (y / x) with ((- y) * / - x) by (field; lra).
          apply Rmult_lt_0_compat; lra. }
        pose proof (proj2 (atan_sign (y / x)) Hq). lra.
    + destruct (Rlt_dec 0 y); [lra|]. destruct (Rlt_dec y 0); lra.
Qed.

(** The angle of the camera about the vertical axis moves a twentieth of
    the way to [handX * 0.2] each frame, and for a positive target
    distance and [handX] in [-1, 1] the angle the next frame reads from
    the new position is the angle this frame set: it stays inside
    (-PI, PI) and is not folded. *)
Theorem camera_angle_step targetDistance handX position :
  0 < targetDistance ->
  -1 <= handX <= 1 ->
  let position' := GestureCameraHandler.useFrame targetDistance handX position in
  let cur := atan2 (vec_x position) (vec_z position) in
  let new := MathUtils_lerp cur (handX * 0.2) 0.05 in
  - PI < cur <= PI /\
  new - handX * 0.2 = 0.95 * (cur - handX * 0.2) /\
  - PI < new < PI /\
  atan2 (vec_x position') (vec_z position') = new.
Proof.
  intros Ht Hh position' cur new.
  pose proof (atan2_range (vec_x position) (vec_z position)) as Hcur.
  fold cur in Hcur.
  pose proof PI2_1 as Hpi.
  assert (Hnew : - PI < new < PI) by (unfold new, MathUtils_lerp; lra).
  split; [exact Hcur|].
  split; [unfold new, MathUtils_lerp; lra|].
  split; [exact Hnew|].
  subst position'. unfold GestureCameraHandler.useFrame. cbv zeta.
  cbn [vec_x vec_z]. fold cur. fold new.
  apply atan2_of_polar; [|lra].
  assert (0 <= GestureCameraHandler.length position) by apply sqrt_pos.
  unfold MathUtils_lerp. lra.
Qed.

Lemma camera_angle_step_witness :
  let position' := GestureCameraHandler.useFrame 18 0.5 camera_side in
  let cur := atan2 (vec_x camera_side) (vec_z camera_side) in
  let new := MathUtils_lerp cur (0.5 * 0.2) 0.05 in
  - PI < cur <= PI /\
  new - 0.5 * 0.2 = 0.95 * (cur - 0.5 * 0.2) /\
  - PI < new < PI /\
  atan2 (vec_x position') (vec_z position') = new.
Proof.
  apply (camera_angle_step 18 0.5 camera_side); lra.
Defined.

Lemma camera_step_level targetDistance handX position :
  0 <= targetDistance -> vec_y position = 0 ->
  let position' := GestureCameraHandler.useFrame targetDistance handX position in
  vec_y position' = 0 /\
  GestureCameraHandler.length position' - targetDistance =
    0.92 * (GestureCameraHandler.length position - targetDistance).
Proof.
  intros Ht Hy position'. split; [exact Hy|].
  assert (Hlen : 0 <= GestureCameraHandler.length position) by apply sqrt_pos.
  set (newLen := MathUtils_lerp (GestureCameraHandler.length position)
                   targetDistance 0.08).
  assert (Hn : 0 <= newLen) by (unfold newLen, MathUtils_lerp; lra).
  assert (Hl : GestureCameraHandler.length position' = newLen).
  { unfold GestureCameraHandler.length at 1. subst position'.
    unfold GestureCameraHandler.useFrame. cbv zeta. cbn [vec_x vec_y vec_z].
    fold newLen. rewrite Hy.
    match goal with
    | |- sqrt (sin ?a * _ * _ + _ + _) = _ =>
        replace (sin a * newLen * (sin a * newLen) + 0 * 0
                 + cos a * newLen * (cos a * newLen))
          with ((sin a * newLen) * (sin a * newLen)
                + (cos a * newLen) * (cos a * newLen)) by ring
    end.
    rewrite camera_xz_radius. apply Rabs_right. lra. }
  rewrite Hl. unfold newLen, MathUtils_lerp. lra.
Qed.

(** A camera at height 0 closes on a target distance that is not negative
    by the same share every frame, whatever the hand does: after n frames
    its distance to the centre is off the target by 0.92^n times what it
    was, and it is still at height 0. *)
Theorem camera_closes_on_target targetDistance handXs : forall position,
  0 <= targetDistance -> vec_y position = 0 ->
  let position' := camera_run targetDistance handXs position in
  vec_y position' = 0 /\
  GestureCameraHandler.length position' - targetDistance =
    0.92 ^ length handXs
    * (GestureCameraHandler.length position - targetDistance).
Proof.
  induction handXs as [|h hs IH]; intros position Ht Hy.
  - simpl. split; [exact Hy | lra].
  - change (camera_run targetDistance (h :: hs) position)
      with (camera_run targetDistance hs
              (GestureCameraHandler.useFrame targetDistance h position)).
    destruct (camera_step_level targetDistance h position Ht Hy) as [Hy' Hl'].
    destruct (IH _ Ht Hy') as [Hy'' Hl'']. cbv zeta.
    split; [exact Hy''|]. rewrite Hl'', Hl'. simpl. ring.
Qed.

Lemma camera_closes_on_target_witness :
  let position' := camera_run 35 [0; 0.5; -1] camera_start in
  vec_y position' = 0 /\
  GestureCameraHandler.length position' - 35 =
    0.92 ^ length [0; 0.5; -1]
    * (GestureCameraHandler.length camera_start - 35).
Proof.
  apply (camera_closes_on_target 35 [0; 0.5; -1] camera_start).
  - lra.
  - reflexivity.
Defined.

(** ** The shaders *)

(** The light factor of a sprite is between 0.5 and 2: it is
    1 / (0.15 * d + 0.5) up to the distance d = 10 from the light and 0.5
    beyond, and the upper bound 2.5 of the clamp is never reached.  The
    twinkle is between 0.6 and 1, so a colour component in [0, 1] comes
    out between 0 and 2. *)
Theorem sprite_brightness_bounds position uLightPos uTime vPhase r g b :
  0 <= r <= 1 -> 0 <= g <= 1 -> 0 <= b <= 1 ->
  let d := Shader.vDistToCenter position uLightPos in
  let out := Shader.fragColor_rgb (r, g, b) d uTime vPhase in
  0.5 <= Shader.lightInfluence d <= 2 /\
  (d <= 10 -> Shader.lightInfluence d = 1.0 / (d * 0.15 + 0.5)) /\
  (10 <= d -> Shader.lightInfluence d = 0.5) /\
  0.6 <= Shader.twinkle uTime vPhase <= 1 /\
  0 <= fst (fst out) <= 2 /\ 0 <= snd (fst out) <= 2 /\ 0 <= snd out <= 2.
Proof.
  intros Hr Hg Hb d out.
  assert (Hd : 0 <= d) by apply sqrt_pos.
  assert (Hpos : 0 < d * 0.15 + 0.5) by lra.
  set (q := 1.0 / (d * 0.15 + 0.5)).
  assert (Hq : 0 < q <= 2).
  { unfold q. split.
    - apply Rdiv_lt_0_compat; lra.
    - apply (Rmult_le_reg_r (d * 0.15 + 0.5)); [lra|].
      unfold Rdiv. rewrite Rmult_assoc, Rinv_l by lra. lra. }
  assert (Hq10 : d <= 10 -> 0.5 <= q).
  { intros H10. unfold q.
    apply (Rmult_le_reg_r (d * 0.15 + 0.5)); [lra|].
    unfold Rdiv. rewrite Rmult_assoc, Rinv_l by lra. lra. }
  assert (Hq10' : 10 <= d -> q <= 0.5).
  { intros H10. unfold q.
    apply (Rmult_le_reg_r (d * 0.15 + 0.5)); [lra|].
    unfold Rdiv. rewrite Rmult_assoc, Rinv_l by lra. lra. }
  assert (Hli : Shader.lightInfluence d = Rmax q 0.5).
  { unfold Shader.lightInfluence, Shader.clamp. fold q.
    unfold Rmin, Rmax. destruct (Rle_dec q 0.5); destruct (Rle_dec _ 2.5); lra. }
  assert (Hl : 0.5 <= Shader.lightInfluence d <= 2).
  { rewrite Hli. unfold Rmax. destruct (Rle_dec q 0.5); lra. }
  assert (Ht : 0.6 <= Shader.twinkle uTime vPhase <= 1).
  { unfold Shader.twinkle.
    pose proof (SIN_bound (uTime * 2.0 + vPhase)). lra. }
  split; [exact Hl|]. split.
  { intros H10. rewrite Hli. fold q. unfold Rmax.
    destruct (Rle_dec q 0.5); [pose proof (Hq10 H10); lra | reflexivity]. }
  split.
  { intros H10. rewrite Hli. unfold Rmax.
    destruct (Rle_dec q 0.5); [reflexivity | pose proof (Hq10' H10); lra]. }
  split; [exact Ht|].
  subst out. unfold Shader.fragColor_rgb. cbn [fst snd].
  set (li := Shader.lightInfluence d) in *.
  set (tw := Shader.twinkle uTime vPhase) in *.
  clearbody li tw.
  assert (Hm : 0 <= li * tw <= 2) by nra.
  repeat split; rewrite Rmult_assoc; nra.
Qed.

Lemma sprite_brightness_bounds_witness :
  let d := Shader.vDistToCenter camera_side
             {| vec_x := 0; vec_y := 0; vec_z := -2 |} in
  let out := Shader.fragColor_rgb (1, 0.5, 0) d 3 7 in
  0.5 <= Shader.lightInfluence d <= 2 /\
  (d <= 10 -> Shader.lightInfluence d = 1.0 / (d * 0.15 + 0.5)) /\
  (10 <= d -> Shader.lightInfluence d = 0.5) /\
  0.6 <= Shader.twinkle 3 7 <= 1 /\
  0 <= fst (fst out) <= 2 /\ 0 <= snd (fst out) <= 2 /\ 0 <= snd out <= 2.
Proof.
  apply (sprite_brightness_bounds camera_side
           {| vec_x := 0; vec_y := 0; vec_z := -2 |} 3 7 1 0.5 0); lra.
Defined.

(** * The claims on the fields the program reaches *)

(** ** The fields of a run *)

Lemma run_field_keeps count palette g evs :
  keeps_store (fst (initialField count palette g))
    (System.run count evs (System.initialState count palette g)).
Proof.
  apply (run_invariant count (fun _ => True)
           (keeps_store (fst (initialField count palette g)))).
  - unfold keeps_store. simpl. tauto.
  - intros s' ev _. apply step_keeps_store.
  - apply Forall_True_events.
Qed.

(** In the field of any run the position array has three numbers a
    particle and every particle has its initial position in the ring
    1 <= dist < 15 and the slab -2 <= z < 2 where [useMemo] put it. *)
Lemma run_field_reachable count palette g evs i :
  unit_draws g -> (i < count)%nat ->
  length (positions (field_of_run count palette g evs)) = (count * 3)%nat /\
  in_start_range (initialPositions (field_of_run count palette g evs)) i.
Proof.
  intros Hg Hi. unfold field_of_run.
  destruct (run_field_keeps count palette g evs)
    as (_ & _ & _ & _ & Hinit & Hlen).
  destruct (initialField_invariant count palette g Hg)
    as (Hlen0 & Hsame0 & _ & Hrange).
  split.
  - rewrite Hlen, Hsame0. exact Hlen0.
  - rewrite Hinit. apply Hrange. exact Hi.
Qed.

(** ** The wind on the particles of a run *)

(** C4: in the field of any run, the wind moves a particle by
    windVelocity * (1.0 - dist / 20.0) along x and not at all along y and
    z (against the same frame with no wind).  The size of the move is
    |windVelocity| * (20 - dist) / 20: it fades in proportion to what is
    left of the distance to 20, a particle at 20 or more would not be moved
    (every particle of a run is in 1 <= dist < 15), it is at most
    |windVelocity|, and of two particles the one nearer to the centre is
    moved more. *)
Theorem C4_wind_displacement count palette g evs fr i i' :
  unit_draws g ->
  (i < count)%nat ->
  (i' < count)%nat ->
  let st := field_of_run count palette g evs in
  let out := positions (useFrame count fr st) in
  let base := positions (useFrame count (calm fr) (still st)) in
  let w := windVelocity (useFrame count fr st) in
  let d := xy_radius (initialPositions st) i in
  let d' := xy_radius (initialPositions st) i' in
  particle_x out i = particle_x base i + w * (1.0 - d / 20.0) /\
  particle_y out i = particle_y base i /\
  particle_z out i = particle_z base i /\
  1 <= d < 15 /\
  (20 <= d -> particle_x out i = particle_x base i) /\
  Rabs (particle_x out i - particle_x base i) = Rabs w * ((20 - d) / 20) /\
  Rabs (particle_x out i - particle_x base i) <= Rabs w /\
  (d <= d' ->
   Rabs (particle_x out i' - particle_x base i')
   <= Rabs (particle_x out i - particle_x base i)).
Proof.
  intros Hg Hi Hi' st out base w d d'.
  destruct (run_field_reachable count palette g evs i Hg Hi)
    as (Hlen & Hd & _).
  destruct (run_field_reachable count palette g evs i' Hg Hi')
    as (_ & Hd' & _).
  fold st in Hlen, Hd, Hd'. fold d in Hd. fold d' in Hd'.
  assert (Hlen3 : (count * 3 <= length (positions st))%nat) by lia.
  destruct (wind_displacement_formula count fr st i i' Hi Hlen3)
    as (Hx & Hy & Hz & _).
  destruct (wind_displacement_formula count fr st i' i Hi' Hlen3)
    as (Hx' & _).
  fold out base w d in Hx, Hy, Hz. fold out base w d' in Hx'.
  assert (Hmove : particle_x out i - particle_x base i
                  = w * ((20 - d) / 20)) by (rewrite Hx; lra).
  assert (Hmove' : particle_x out i' - particle_x base i'
                   = w * ((20 - d') / 20)) by (rewrite Hx'; lra).
  pose proof (Rabs_pos w) as Hw.
  split; [exact Hx|]. split; [exact Hy|]. split; [exact Hz|].
  split; [exact Hd|].
  split; [intros Hfar; lra|].
  rewrite Hmove, Hmove', !Rabs_mult.
  rewrite (Rabs_right ((20 - d) / 20)) by lra.
  rewrite (Rabs_right ((20 - d') / 20)) by lra.
  split; [reflexivity|].
  split; [nra|]. intros Hle. nra.
Qed.

Lemma C4_wind_displacement_witness :
  let st := field_of_run 2 two_colours saw_rng demo_run in
  let out := positions (useFrame 2 late_frame st) in
  let base := positions (useFrame 2 (calm late_frame) (still st)) in
  let w := windVelocity (useFrame 2 late_frame st) in
  let d := xy_radius (initialPositions st) 0 in
  let d' := xy_radius (initialPositions st) 1 in
  particle_x out 0 = particle_x base 0 + w * (1.0 - d / 20.0) /\
  particle_y out 0 = particle_y base 0 /\
  particle_z out 0 = particle_z base 0 /\
  1 <= d < 15 /\
  (20 <= d -> particle_x out 0 = particle_x base 0) /\
  Rabs (particle_x out 0 - particle_x base 0) = Rabs w * ((20 - d) / 20) /\
  Rabs (particle_x out 0 - particle_x base 0) <= Rabs w /\
  (d <= d' ->
   Rabs (particle_x out 1 - particle_x base 1)
   <= Rabs (particle_x out 0 - particle_x base 0)).
Proof.
  apply (C4_wind_displacement 2 two_colours saw_rng demo_run late_frame 0 1).
  - exact saw_rng_unit.
  - lia.
  - lia.
Defined.

(** ** A point at the origin and the particles of a run *)





(** ** The decay of the wind, on the reals and on doubles *)

(** The idle step leaves the doubles of magnitude k * 2^-1074, k <= 9,
    where they are: 0.95 * k rounds back to k. *)
Lemma smoothedWind_subnormal_fixed negative k vx :
  (k <= 9)%positive ->
  Binary64.smoothedWind (subnormal negative k) (idle_hand vx)
  = subnormal negative k.
Proof.
  intros Hk.
  unfold Binary64.smoothedWind, Binary64.targetWind, idle_hand.
  cbn [Binary64.hand_active].
  assert (Hcases : k = 1%positive \/ k = 2%positive \/ k = 3%positive \/
                   k = 4%positive \/ k = 5%positive \/ k = 6%positive \/
                   k = 7%positive \/ k = 8%positive \/ k = 9%positive) by lia.
  destruct negative;
    decompose [or] Hcases; subst k; vm_compute; reflexivity.
Qed.

(** C7, as amended: with the gesture signal inactive the step aims at 0.
    On the reals the new wind velocity is never larger in magnitude than
    the old one, it is strictly smaller when the old one is not 0, and over
    enough idle frames it comes below every positive bound.  On the doubles
    the code computes with, the decrease is not strict and the wind does not
    come arbitrarily near 0: the step leaves every value of magnitude
    k * 2^-1074 with k <= 9 as it is, as it leaves 0, NaN and the
    infinities. *)
Theorem C7_wind_decay count fr st negative k vx :
  inactive fr ->
  (k <= 9)%positive ->
  (Rabs (windVelocity (useFrame count fr st)) <= Rabs (windVelocity st) /\
   (windVelocity st <> 0 ->
    Rabs (windVelocity (useFrame count fr st)) < Rabs (windVelocity st)) /\
   (forall eps, 0 < eps ->
    exists N, forall frs, Forall inactive frs -> (N <= length frs)%nat ->
      Rabs (windVelocity (run_frames count frs st)) < eps)) /\
  Binary64.smoothedWind (subnormal negative k) (idle_hand vx)
  = subnormal negative k /\
  Binary64.smoothedWind Binary64.zero (idle_hand vx) = Binary64.zero /\
  Binary64.smoothedWind Binary64.NaN (idle_hand vx) = Binary64.NaN /\
  Binary64.smoothedWind (SpecFloat.S754_infinity negative) (idle_hand vx)
  = SpecFloat.S754_infinity negative.
Proof.
  intros Hfr Hk.
  split; [exact (wind_decay_exact count fr st Hfr)|].
  split; [exact (smoothedWind_subnormal_fixed negative k vx Hk)|].
  unfold Binary64.smoothedWind, Binary64.targetWind, idle_hand.
  cbn [Binary64.hand_active].
  split; [vm_compute; reflexivity|].
  split; [vm_compute; reflexivity|].
  destruct negative; vm_compute; reflexivity.
Qed.

Lemma C7_wind_decay_witness :
  (Rabs (windVelocity (useFrame 3 scenario_frame windy_field))
   <= Rabs (windVelocity windy_field) /\
   (windVelocity windy_field <> 0 ->
    Rabs (windVelocity (useFrame 3 scenario_frame windy_field))
    < Rabs (windVelocity windy_field)) /\
   (forall eps, 0 < eps ->
    exists N, forall frs, Forall inactive frs -> (N <= length frs)%nat ->
      Rabs (windVelocity (run_frames 3 frs windy_field)) < eps)) /\
  Binary64.smoothedWind (subnormal true 9) (idle_hand Binary64.one)
  = subnormal true 9 /\
  Binary64.smoothedWind Binary64.zero (idle_hand Binary64.one)
  = Binary64.zero /\
  Binary64.smoothedWind Binary64.NaN (idle_hand Binary64.one) = Binary64.NaN /\
  Binary64.smoothedWind (SpecFloat.S754_infinity true)
    (idle_hand Binary64.one)
  = SpecFloat.S754_infinity true.
Proof.
  apply (C7_wind_decay 3 scenario_frame windy_field true 9%positive
           Binary64.one).
  - reflexivity.
  - vm_compute. discriminate.
Defined.

(** The claim C7 as the spec words it fails on doubles: the smallest
    positive double is not 0 and an idle frame leaves it as it is, no
    smaller; and the wind velocity -1.5, left to decay for 15000 idle
    frames, has stopped at -9 * 2^-1074, which one more idle frame does not
    change: it does not go on to 0. *)
Lemma C7_counterexample :
  subnormal false 1 <> Binary64.zero /\
  Binary64.smoothedWind (subnormal false 1) (idle_hand Binary64.zero)
  = subnormal false 1 /\
  idle_frames long_idle Binary64Constants.minus_one_and_a_half
  = subnormal true 9 /\
  idle_frames 1 (subnormal true 9) = subnormal true 9 /\
  subnormal true 9 <> Binary64.zero.
Proof.
  split; [discriminate|].
  split; [vm_compute; reflexivity|].
  split; [vm_compute; reflexivity|].
  split; [vm_compute; reflexivity|].
  discriminate.
Qed.
